(** * bitcoin-keychain-svc: the keystore's per-account record and its index accounting

    Part one is a shallow embedding of pkg/keystore/store.go: [KeychainInfo],
    [Meta] and the accessors of [Meta].  Part two models the keychain engine
    (creation, fresh addresses, mark-as-used) from the service's
    specification, over those accessors: store.go declares the engine's
    operations in the [Keystore] interface and holds none of their bodies.
    The properties follow the definitions.

    Conventions.
    - A Go [uint32] is a [Z]; every place where the source computes on one
      writes the reduction modulo [2^32] out ([U32.wrap]).
    - A method with a pointer receiver ([func (m *Meta) ...  error]) is a
      function from the record to the updated record and the returned error
      ([None] is Go's [nil]).
    - A method returning [(T, error)] is a function to [result T].
    - A slice is the list of its elements: a nil slice and an empty non-nil
      slice are both the empty list, and what is stated of a list field is
      stated of its contents.
    - Go maps are stdpp's [gmap]. *)

From Stdlib Require Import ZArith List Lia Sorted.
From stdpp Require Import base decidable option numbers list gmap strings pretty.

Local Open Scope Z_scope.

(** ** Unsigned 32-bit arithmetic *)

Module U32.

Definition modulus : Z := 2 ^ 32.

(** The values a [uint32] can hold. *)
Definition in_range (x : Z) : Prop := 0 <= x < modulus.

(** Conversion to [uint32] ([uint32(e)]): the low 32 bits are kept. *)
Definition wrap (x : Z) : Z := x mod modulus.

(** [a + b] on two [uint32] operands. *)
Definition add (a b : Z) : Z := wrap (a + b).

(** [uint32(len(s))] for a slice [s]. *)
Definition of_len {A : Type} (s : list A) : Z := wrap (Z.of_nat (length s)).

End U32.

(** ** Package keystore *)

Module keystore.

(** Modelled from the spec: the declaration of [Change] and of its two
    constants is in another file of the package.  The specification's data
    model gives the tags as EXTERNAL=0 and INTERNAL=1; the [default] branches
    of the switches in store.go show that the type has further values, so it
    is an integer type here.  The accessors only compare a [Change] for
    equality. *)
Definition Change : Type := Z.
Definition External : Change := 0.
Definition Internal : Change := 1.

(** Modelled from the spec: [DerivationPath] is declared in another file of
    the package.  The specification has paths of length two relative to the
    account node, [(change, address_index)]. *)
Definition DerivationPath : Type := (Change * Z)%type.

(** [type Scheme string] and its constants. *)
Definition Scheme : Type := string.
Definition BIP44 : Scheme := "BIP44"%string.
Definition BIP49 : Scheme := "BIP49"%string.
Definition BIP84 : Scheme := "BIP84"%string.

(** [type Network string] and its constants. *)
Definition Network : Type := string.
Definition Mainnet : Network := "mainnet"%string.
Definition Testnet3 : Network := "testnet3"%string.
Definition Regtest : Network := "regtest"%string.

(** [const lookaheadSize = 20] *)
Definition lookaheadSize : Z := 20.

(** Errors.  [ErrUnrecognizedChange] is the package's sentinel, a non-nil
    error value declared in another file; [Wrapf cause arg] is [errors.Wrapf(cause, fmt.Sprint(arg))]:
    the message is the printed form of [arg], kept here as the printed value
    itself.  Go's [error] is an open type: [ErrNotFound] and
    [ErrAlreadyExists] are the store's NOT_FOUND and ALREADY_EXISTS and
    [ErrCodec tag] is an error of the key or address codec (MALFORMED_KEY,
    INVALID_DERIVATION, HARDENED_INDEX, ...); only the engine model below
    returns them. *)
Inductive error : Type :=
  | ErrUnrecognizedChange
  | Wrapf (cause : error) (arg : Change)
  | ErrNotFound
  | ErrAlreadyExists
  | ErrCodec (tag : string).

(** [errors.Cause]: the innermost error of a chain of wrappers. *)
Fixpoint Cause (e : error) : error :=
  match e with
  | Wrapf cause _ => Cause cause
  | _ => e
  end.

(** The outcome of a Go function returning [(T, error)]. *)
Inductive result (T : Type) : Type :=
  | Ok (v : T)
  | Err (e : error).
Arguments Ok {T} v.
Arguments Err {T} e.

Definition bind {A B : Type} (r : result A) (k : A -> result B) : result B :=
  match r with
  | Ok v => k v
  | Err e => Err e
  end.

Notation "x <- r ;; k" := (bind r (fun x => k))
  (at level 100, r at next level, right associativity).

(** [KeychainInfo]: the global information of an account registered in the
    keystore.  The two fields called Scheme and Network in the source carry
    their JSON names here, since the record's projections share a name space
    with the types. *)
Record KeychainInfo : Type := mkKeychainInfo {
  Descriptor : string;
  XPub : string;
  SLIP32ExtendedPublicKey : string;
  ExternalXPub : string;
  MaxConsecutiveExternalIndex : Z;
  InternalXPub : string;
  MaxConsecutiveInternalIndex : Z;
  LookaheadSize : Z;
  scheme : Scheme;
  network : Network;
  NonConsecutiveExternalIndexes : list Z;
  NonConsecutiveInternalIndexes : list Z
}.

(** The value type of [derivationToPublicKeyMap]. *)
Record derivation : Type := mkDerivation {
  PublicKey : string;
  Used : bool
}.

Abbreviation derivationToPublicKeyMap := (gmap DerivationPath derivation).

(** [Meta]: the account details behind a descriptor. *)
Record Meta : Type := mkMeta {
  Main : KeychainInfo;
  Derivations : derivationToPublicKeyMap;
  Addresses : gmap string DerivationPath
}.

(** [Schema]: account descriptors to account information.  The Go map holds
    pointers; an update of a record through its pointer is the replacement of
    the descriptor's entry. *)
Abbreviation Schema := (gmap string Meta).

(** Assignments to single fields ([m.Main.F = v]). *)
Definition set_MaxConsecutiveExternalIndex (v : Z) (m : Meta) : Meta :=
  let k := Main m in
  mkMeta
    (mkKeychainInfo (Descriptor k) (XPub k) (SLIP32ExtendedPublicKey k)
       (ExternalXPub k) v (InternalXPub k) (MaxConsecutiveInternalIndex k)
       (LookaheadSize k) (scheme k) (network k)
       (NonConsecutiveExternalIndexes k) (NonConsecutiveInternalIndexes k))
    (Derivations m) (Addresses m).

Definition set_MaxConsecutiveInternalIndex (v : Z) (m : Meta) : Meta :=
  let k := Main m in
  mkMeta
    (mkKeychainInfo (Descriptor k) (XPub k) (SLIP32ExtendedPublicKey k)
       (ExternalXPub k) (MaxConsecutiveExternalIndex k) (InternalXPub k) v
       (LookaheadSize k) (scheme k) (network k)
       (NonConsecutiveExternalIndexes k) (NonConsecutiveInternalIndexes k))
    (Derivations m) (Addresses m).

Definition set_NonConsecutiveExternalIndexes (v : list Z) (m : Meta) : Meta :=
  let k := Main m in
  mkMeta
    (mkKeychainInfo (Descriptor k) (XPub k) (SLIP32ExtendedPublicKey k)
       (ExternalXPub k) (MaxConsecutiveExternalIndex k) (InternalXPub k)
       (MaxConsecutiveInternalIndex k) (LookaheadSize k) (scheme k) (network k)
       v (NonConsecutiveInternalIndexes k))
    (Derivations m) (Addresses m).

Definition set_NonConsecutiveInternalIndexes (v : list Z) (m : Meta) : Meta :=
  let k := Main m in
  mkMeta
    (mkKeychainInfo (Descriptor k) (XPub k) (SLIP32ExtendedPublicKey k)
       (ExternalXPub k) (MaxConsecutiveExternalIndex k) (InternalXPub k)
       (MaxConsecutiveInternalIndex k) (LookaheadSize k) (scheme k) (network k)
       (NonConsecutiveExternalIndexes k) v)
    (Derivations m) (Addresses m).

(** [func (m Meta) ChangeXPub(change Change) (string, error)] *)
Definition ChangeXPub (m : Meta) (change : Change) : result string :=
  if decide (change = External) then Ok (ExternalXPub (Main m))
  else if decide (change = Internal) then Ok (InternalXPub (Main m))
  else Err (Wrapf ErrUnrecognizedChange change).

(** [func (m Meta) MaxConsecutiveIndex(change Change) (uint32, error)] *)
Definition MaxConsecutiveIndex (m : Meta) (change : Change) : result Z :=
  if decide (change = External) then Ok (MaxConsecutiveExternalIndex (Main m))
  else if decide (change = Internal) then Ok (MaxConsecutiveInternalIndex (Main m))
  else Err (Wrapf ErrUnrecognizedChange change).

(** [func (m *Meta) SetMaxConsecutiveIndex(change Change, index uint32) error] *)
Definition SetMaxConsecutiveIndex (m : Meta) (change : Change) (index : Z)
  : Meta * option error :=
  if decide (change = External) then (set_MaxConsecutiveExternalIndex index m, None)
  else if decide (change = Internal) then (set_MaxConsecutiveInternalIndex index m, None)
  else (m, Some (Wrapf ErrUnrecognizedChange change)).

(** [func (m Meta) NonConsecutiveIndexes(change Change) ([]uint32, error)] *)
Definition NonConsecutiveIndexes (m : Meta) (change : Change) : result (list Z) :=
  if decide (change = External) then Ok (NonConsecutiveExternalIndexes (Main m))
  else if decide (change = Internal) then Ok (NonConsecutiveInternalIndexes (Main m))
  else Err (Wrapf ErrUnrecognizedChange change).

(** The loop of [SetNonConsecutiveIndexes]:
    [for _, i := range indexes { if i >= maxConsecutiveIndex { result = append(result, i) } }]
    started from the nil slice. *)
Definition keepFrom (maxConsecutiveIndex : Z) (indexes : list Z) : list Z :=
  fold_left
    (fun result i => if maxConsecutiveIndex <=? i then result ++ [i] else result)
    indexes [].

(** [func (m *Meta) SetNonConsecutiveIndexes(change Change, indexes []uint32) error] *)
Definition SetNonConsecutiveIndexes (m : Meta) (change : Change) (indexes : list Z)
  : Meta * option error :=
  match MaxConsecutiveIndex m change with
  | Err err => (m, Some err)
  | Ok maxConsecutiveIndex =>
      let result := keepFrom maxConsecutiveIndex indexes in
      if decide (change = External) then (set_NonConsecutiveExternalIndexes result m, None)
      else if decide (change = Internal) then (set_NonConsecutiveInternalIndexes result m, None)
      else (m, Some (Wrapf ErrUnrecognizedChange change))
  end.

(** [func (m Meta) MaxObservableIndex(change Change) (uint32, error)] *)
Definition MaxObservableIndex (m : Meta) (change : Change) : result Z :=
  if decide (change = External) then
    let n := U32.of_len (NonConsecutiveExternalIndexes (Main m)) in
    Ok (U32.add (U32.add (MaxConsecutiveExternalIndex (Main m)) n) (LookaheadSize (Main m)))
  else if decide (change = Internal) then
    let n := U32.of_len (NonConsecutiveInternalIndexes (Main m)) in
    Ok (U32.add (U32.add (MaxConsecutiveInternalIndex (Main m)) n) (LookaheadSize (Main m)))
  else Err (Wrapf ErrUnrecognizedChange change).

(** A record whose [uint32] fields hold [uint32] values. *)
Record wf_uint32 (m : Meta) : Prop := mk_wf_uint32 {
  wf_MaxConsecutiveExternalIndex : U32.in_range (MaxConsecutiveExternalIndex (Main m));
  wf_MaxConsecutiveInternalIndex : U32.in_range (MaxConsecutiveInternalIndex (Main m));
  wf_LookaheadSize : U32.in_range (LookaheadSize (Main m));
  wf_NonConsecutiveExternalIndexes :
    Forall U32.in_range (NonConsecutiveExternalIndexes (Main m));
  wf_NonConsecutiveInternalIndexes :
    Forall U32.in_range (NonConsecutiveInternalIndexes (Main m))
}.

(** A change tag that the accessors recognise. *)
Definition recognized (change : Change) : Prop :=
  change = External \/ change = Internal.

(** The call returned an error whose cause is [ErrUnrecognizedChange]. *)
Definition unrecognized_result {T : Type} (r : result T) : Prop :=
  exists e, r = Err e /\ Cause e = ErrUnrecognizedChange.

Definition unrecognized_error (r : Meta * option error) : Prop :=
  exists e, r.2 = Some e /\ Cause e = ErrUnrecognizedChange.

(** The fields of a [Meta], to say which ones two records agree on. *)
Inductive field : Type :=
  | FDescriptor | FXPub | FSLIP32ExtendedPublicKey
  | FExternalXPub | FMaxConsecutiveExternalIndex
  | FInternalXPub | FMaxConsecutiveInternalIndex
  | FLookaheadSize | FScheme | FNetwork
  | FNonConsecutiveExternalIndexes | FNonConsecutiveInternalIndexes
  | FDerivations | FAddresses.

Definition agree_on (f : field) (m m' : Meta) : Prop :=
  match f with
  | FDescriptor => Descriptor (Main m') = Descriptor (Main m)
  | FXPub => XPub (Main m') = XPub (Main m)
  | FSLIP32ExtendedPublicKey =>
      SLIP32ExtendedPublicKey (Main m') = SLIP32ExtendedPublicKey (Main m)
  | FExternalXPub => ExternalXPub (Main m') = ExternalXPub (Main m)
  | FMaxConsecutiveExternalIndex =>
      MaxConsecutiveExternalIndex (Main m') = MaxConsecutiveExternalIndex (Main m)
  | FInternalXPub => InternalXPub (Main m') = InternalXPub (Main m)
  | FMaxConsecutiveInternalIndex =>
      MaxConsecutiveInternalIndex (Main m') = MaxConsecutiveInternalIndex (Main m)
  | FLookaheadSize => LookaheadSize (Main m') = LookaheadSize (Main m)
  | FScheme => scheme (Main m') = scheme (Main m)
  | FNetwork => network (Main m') = network (Main m)
  | FNonConsecutiveExternalIndexes =>
      NonConsecutiveExternalIndexes (Main m') = NonConsecutiveExternalIndexes (Main m)
  | FNonConsecutiveInternalIndexes =>
      NonConsecutiveInternalIndexes (Main m') = NonConsecutiveInternalIndexes (Main m)
  | FDerivations => Derivations m' = Derivations m
  | FAddresses => Addresses m' = Addresses m
  end.

(** [m'] differs from [m] in the field [f] at most. *)
Definition only_changes (f : field) (m m' : Meta) : Prop :=
  forall g, g <> f -> agree_on g m m'.

(** The second invariant of the data model, as the specification words it:
    every non-consecutive index of the chain is strictly greater than the
    chain's max consecutive index. *)
Definition strictly_above_max (m : Meta) (change : Change) : Prop :=
  forall mx nc,
    MaxConsecutiveIndex m change = Ok mx ->
    NonConsecutiveIndexes m change = Ok nc ->
    Forall (fun x => mx < x) nc.

(** What the filter of [SetNonConsecutiveIndexes] establishes. *)
Definition at_least_max (m : Meta) (change : Change) : Prop :=
  forall mx nc,
    MaxConsecutiveIndex m change = Ok mx ->
    NonConsecutiveIndexes m change = Ok nc ->
    Forall (fun x => mx <= x) nc.

(** Set semantics of the non-consecutive indexes of a chain. *)
Definition no_duplicates (m : Meta) (change : Change) : Prop :=
  forall nc, NonConsecutiveIndexes m change = Ok nc -> List.NoDup nc.

(** The exact (unbounded) size of the observable window of a chain. *)
Definition exact_window (mx : Z) (nc : list Z) (lookahead : Z) : Z :=
  mx + Z.of_nat (length nc) + lookahead.

(** A record with the given index accounting, no key material and no
    derivation, for the examples. *)
Definition accounting (maxExt maxInt lookahead : Z) (ncExt ncInt : list Z) : Meta :=
  mkMeta
    (mkKeychainInfo "" "" "" "" maxExt "" maxInt lookahead BIP44 Mainnet ncExt ncInt)
    ∅ ∅.

End keystore.

(** ** The keychain engine

    store.go declares the [Keystore] interface only; the bodies of its
    operations are in other files of the repository.  The definitions of this
    module follow the specification of the keychain engine and of the store
    contract, over the [Meta] accessors above. *)

Module engine.
Import keystore.

(** Modelled from the spec: the key codec (BIP-32 CKDpub, serialisation,
    SLIP-0132) and the address codec live outside pkg/keystore/store.go; the
    engine reaches them through this interface.  Every operation may fail
    with one of the codec's errors.
    - [CKDpub xpub i]: the serialised child extended key of [xpub] at the
      non-hardened index [i];
    - [childPublicKey xpub i]: the compressed public key of that child;
    - [SLIP32 xpub scheme network]: [xpub] with the scheme's version bytes;
    - [accountXPub pubkey chaincode account_index network]: the account key
      rebuilt from raw material;
    - [encodeAddress pubkey scheme network]: the address of a public key. *)
Class Codec : Type := {
  CKDpub : string -> Z -> result string;
  childPublicKey : string -> Z -> result string;
  SLIP32 : string -> Scheme -> Network -> result string;
  accountXPub : string -> string -> Z -> Network -> result string;
  encodeAddress : string -> Scheme -> Network -> result string
}.

(** Modelled from the spec: the account argument of CreateKeychain,
    [xpub | (pubkey, chaincode, account_index)]. *)
Inductive Account : Type :=
  | FromXPub (xpub : string)
  | FromMaterial (pubkey chaincode : string) (account_index : Z).

(** Sequencing of fallible steps over a list: the first error is surfaced
    unchanged. *)
Fixpoint traverse {A B : Type} (f : A -> result B) (l : list A) : result (list B) :=
  match l with
  | [] => Ok []
  | x :: l' => y <- f x ;; ys <- traverse f l' ;; Ok (y :: ys)
  end.

Fixpoint foldResult {A S : Type} (f : S -> A -> result S) (l : list A) (s : S)
  : result S :=
  match l with
  | [] => Ok s
  | x :: l' => s' <- f s x ;; foldResult f l' s'
  end.

(** Modelled from the spec: the store contract, a mapping from descriptors to
    [Meta].  [Get] fails with NOT_FOUND, [Create] refuses to overwrite,
    [Update] is a read-modify-write that persists nothing when the
    modification fails, [Delete] removes.  One request runs at a time here,
    so CONFLICT and DEADLINE_EXCEEDED do not arise. *)
Definition Get (s : Schema) (descriptor : string) : result Meta :=
  match s !! descriptor with
  | Some m => Ok m
  | None => Err ErrNotFound
  end.

Definition StoreCreate (s : Schema) (descriptor : string) (init : Meta)
  : Schema * option error :=
  match s !! descriptor with
  | Some _ => (s, Some ErrAlreadyExists)
  | None => (<[descriptor := init]> s, None)
  end.

Definition Update (s : Schema) (descriptor : string) (f : Meta -> result Meta)
  : Schema * option error :=
  match s !! descriptor with
  | None => (s, Some ErrNotFound)
  | Some m =>
      match f m with
      | Ok m' => (<[descriptor := m']> s, None)
      | Err e => (s, Some e)
      end
  end.

Definition Delete (s : Schema) (descriptor : string) : Schema * option error :=
  match s !! descriptor with
  | None => (s, Some ErrNotFound)
  | Some _ => (delete descriptor s, None)
  end.

(** Modelled from the spec: gap closure.  "While the smallest element of
    non_consecutive(C) equals the new max_consecutive(C), remove it and
    increment again."  [smallest] is the minimum of the list; an iteration
    removes the index from the list, so the length of the list bounds the
    number of iterations. *)
Definition smallest (nc : list Z) : option Z :=
  match nc with
  | [] => None
  | x :: nc' => Some (fold_left Z.min nc' x)
  end.

Fixpoint closeGaps (fuel : nat) (mx : Z) (nc : list Z) : Z * list Z :=
  match fuel with
  | O => (mx, nc)
  | S fuel' =>
      match smallest nc with
      | Some x =>
          if x =? mx then closeGaps fuel' (mx + 1) (remove Z.eq_dec x nc)
          else (mx, nc)
      | None => (mx, nc)
      end
  end.

(** Modelled from the spec: the loop of the same sentence as a relation
    between the accounting before and after it; [closeGaps] is the program,
    this is what it has to compute. *)
Inductive gap_closure : Z * list Z -> Z * list Z -> Prop :=
  | gap_closure_done (mx : Z) (nc : list Z) :
      smallest nc <> Some mx ->
      gap_closure (mx, nc) (mx, nc)
  | gap_closure_step (mx : Z) (nc : list Z) (r : Z * list Z) :
      smallest nc = Some mx ->
      gap_closure (mx + 1, remove Z.eq_dec mx nc) r ->
      gap_closure (mx, nc) r.

(** Modelled from the spec: "insert i into non_consecutive(C) (set
    semantics; duplicates are no-ops)". *)
Definition insertIndex (i : Z) (nc : list Z) : list Z :=
  if in_dec Z.eq_dec i nc then nc else nc ++ [i].

(** Modelled from the spec: the engine's write of the accounting of one
    chain, the two fields [MaxConsecutive*Index] and [NonConsecutive*Indexes]
    of the chain. *)
Definition putAccounting (change : Change) (mx : Z) (nc : list Z) (m : Meta) : Meta :=
  if decide (change = External) then
    set_NonConsecutiveExternalIndexes nc (set_MaxConsecutiveExternalIndex mx m)
  else if decide (change = Internal) then
    set_NonConsecutiveInternalIndexes nc (set_MaxConsecutiveInternalIndex mx m)
  else m.

(** Modelled from the spec: the case analysis of MarkPathAsUsed on the index
    [i] of a path: below the max consecutive index nothing changes; at it,
    increment and close the gaps; above it, insert. *)
Definition accountIndex (mx : Z) (nc : list Z) (i : Z) : Z * list Z :=
  if i <? mx then (mx, nc)
  else if i =? mx then closeGaps (length nc) (mx + 1) nc
  else (mx, insertIndex i nc).

Section Engine.
Context {codec : Codec}.

(** Modelled from the spec: the public key and the address at a path
    [(change, index)] of the account: the child of the chain's extended key
    ([ChangeXPub] of store.go) at the index, encoded under the account's
    scheme and network. *)
Definition publicKeyAt (m : Meta) (path : DerivationPath) : result string :=
  xpub <- ChangeXPub m path.1 ;; childPublicKey xpub path.2.

Definition addressOf (m : Meta) (publicKey : string) : result string :=
  encodeAddress publicKey (scheme (Main m)) (network (Main m)).

Definition addressAt (m : Meta) (path : DerivationPath) : result string :=
  pk <- publicKeyAt m path ;; addressOf m pk.

(** Modelled from the spec: an entry of the derivation cache is created on
    first derivation, not used, and indexed by its address. *)
Definition ensureDerived (m : Meta) (path : DerivationPath) : result Meta :=
  match Derivations m !! path with
  | Some _ => Ok m
  | None =>
      pk <- publicKeyAt m path ;;
      address <- addressOf m pk ;;
      Ok (mkMeta (Main m)
            (<[path := mkDerivation pk false]> (Derivations m))
            (<[address := path]> (Addresses m)))
  end.

(** Modelled from the spec: "Set the used flag on the cache entry; create the
    entry if absent." *)
Definition setUsed (m : Meta) (path : DerivationPath) : result Meta :=
  m' <- ensureDerived m path ;;
  Ok (mkMeta (Main m')
        (alter (fun d => mkDerivation (PublicKey d) true) path (Derivations m'))
        (Addresses m')).

(** Modelled from the spec: the observable-window extension, "extend the
    derivation cache forward so that every index in [0, max_consecutive(C) +
    |non_consecutive(C)| + lookahead_size) exists and is address-indexed". *)
Definition extendWindow (m : Meta) (change : Change) : result Meta :=
  bound <- MaxObservableIndex m change ;;
  foldResult ensureDerived
    (map (fun k => (change, Z.of_nat k)) (seq 0 (Z.to_nat bound))) m.

(** Two records with the same chain keys, scheme and network. *)
Definition same_keys (m m' : Meta) : Prop :=
  ExternalXPub (Main m') = ExternalXPub (Main m) /\
  InternalXPub (Main m') = InternalXPub (Main m) /\
  scheme (Main m') = scheme (Main m) /\
  network (Main m') = network (Main m).

(** The observable bound of the chain once the index [i] is accounted for:
    the window that the mark extends the derivation cache to. *)
Definition boundAfterMark (mx : Z) (nc : list Z) (i lookahead : Z) : Z :=
  U32.wrap
    (exact_window (accountIndex mx nc i).1 (accountIndex mx nc i).2 lookahead).

(** What a mark of the path [(change, i)] that went through leaves in the
    record [m'], for a record [m] whose chain had the max consecutive index
    [mx <= i] and the non-consecutive indexes [nc]: at [i = mx] the index is
    incremented and the gaps are closed from there; above it the index stays
    and [i] joins the list unless the list holds it; the path's cache entry
    is flagged used; the accounting of the other chain is untouched. *)
Definition marked (m : Meta) (change : Change) (i mx : Z) (nc : list Z)
    (m' : Meta) : Prop :=
  exists mx' nc',
    MaxConsecutiveIndex m' change = Ok mx' /\
    NonConsecutiveIndexes m' change = Ok nc' /\
    (i = mx -> gap_closure (mx + 1, nc) (mx', nc')) /\
    (mx < i ->
     mx' = mx /\ (In i nc -> nc' = nc) /\ (~ In i nc -> nc' = nc ++ [i])) /\
    (exists d, Derivations m' !! (change, i) = Some d /\ Used d = true) /\
    (forall c', c' <> change ->
       MaxConsecutiveIndex m' c' = MaxConsecutiveIndex m c' /\
       NonConsecutiveIndexes m' c' = NonConsecutiveIndexes m c').

(** Modelled from the spec: the account key of CreateKeychain, given or
    rebuilt from raw account material. *)
Definition accountKey (account : Account) (net : Network) : result string :=
  match account with
  | FromXPub xpub => Ok xpub
  | FromMaterial pubkey chaincode account_index =>
      accountXPub pubkey chaincode account_index net
  end.

(** Modelled from the spec: CreateKeychain(account, scheme, network,
    lookahead = 20), the creation behind [Keystore.Create].  The child keys
    of the two chains are derived, the accounting starts at zero with empty
    lists and empty caches, and the record is persisted with the store's
    Create.  A call that names no lookahead gets the package's
    [lookaheadSize]. *)
Definition CreateKeychain (s : Schema) (descriptor : string) (account : Account)
    (sch : Scheme) (net : Network) (lookahead : option Z)
  : Schema * result KeychainInfo :=
  let built :=
    xpub <- accountKey account net ;;
    slip32 <- SLIP32 xpub sch net ;;
    external <- CKDpub xpub 0 ;;
    internal <- CKDpub xpub 1 ;;
    Ok (mkKeychainInfo descriptor xpub slip32 external 0 internal 0
          (default lookaheadSize lookahead) sch net [] []) in
  match built with
  | Err e => (s, Err e)
  | Ok info =>
      match StoreCreate s descriptor (mkMeta info ∅ ∅) with
      | (s', None) => (s', Ok info)
      | (s', Some e) => (s', Err e)
      end
  end.

(** Modelled from the spec: GetFreshAddresses(descriptor, change, n), the
    body of [Keystore.GetFreshAddresses].  "Let base = max_consecutive(change);
    return addresses at paths (change, base), (change, base+1), ...,
    (change, base+n-1).  No state mutation." *)
Definition freshPaths (change : Change) (base : Z) (n : Z) : list DerivationPath :=
  map (fun k => (change, base + Z.of_nat k)) (seq 0 (Z.to_nat n)).

Definition GetFreshAddresses (s : Schema) (descriptor : string) (change : Change)
    (size : Z) : Schema * result (list string) :=
  (s,
   m <- Get s descriptor ;;
   base <- MaxConsecutiveIndex m change ;;
   traverse (addressAt m) (freshPaths change base size)).

(** Modelled from the spec: MarkPathAsUsed(descriptor, path) on one record.
    An index below the max consecutive index is a no-op; otherwise the
    accounting of the chain is updated, the used flag is set and the
    observable window is extended.  The path form does not go through the
    address index, so it has no observability check. *)
Definition markPath (path : DerivationPath) (m : Meta) : result Meta :=
  mx <- MaxConsecutiveIndex m path.1 ;;
  nc <- NonConsecutiveIndexes m path.1 ;;
  if path.2 <? mx then Ok m
  else
    let '(mx', nc') := accountIndex mx nc path.2 in
    m' <- setUsed (putAccounting path.1 mx' nc' m) path ;;
    extendWindow m' path.1.

(** Modelled from the spec: MarkPathAsUsed(descriptor, path), the body of
    [Keystore.MarkPathAsUsed].  The record is read, modified and written back
    through the store's Update; a failure persists nothing. *)
Definition MarkPathAsUsed (s : Schema) (descriptor : string) (path : DerivationPath)
  : Schema * option error :=
  Update s descriptor (markPath path).

End Engine.

(** A codec for the examples: a key is the text of its derivation. *)
Definition textCodec : Codec := {|
  CKDpub xpub i := Ok (xpub +:+ "/" +:+ pretty i);
  childPublicKey xpub i := Ok ("pub(" +:+ xpub +:+ "/" +:+ pretty i +:+ ")");
  SLIP32 xpub sch net := Ok (sch +:+ ":" +:+ xpub);
  accountXPub pk cc ix net := Ok (pk +:+ cc +:+ "/" +:+ pretty ix);
  encodeAddress pk sch net := Ok (sch +:+ "@" +:+ net +:+ ":" +:+ pk)
|}%string.

(** The same codec, refusing hardened indexes as a key codec must: a child
    index outside [0, 2^31) has no key. *)
Definition nonHardened (i : Z) : bool := (0 <=? i) && (i <? 2 ^ 31).

Definition hardenedCodec : Codec := {|
  CKDpub xpub i :=
    if nonHardened i then Ok (xpub +:+ "/" +:+ pretty i)
    else Err (ErrCodec "HARDENED_INDEX");
  childPublicKey xpub i :=
    if nonHardened i then Ok ("pub(" +:+ xpub +:+ "/" +:+ pretty i +:+ ")")
    else Err (ErrCodec "HARDENED_INDEX");
  SLIP32 xpub sch net := Ok (sch +:+ ":" +:+ xpub);
  accountXPub pk cc ix net := Ok (pk +:+ cc +:+ "/" +:+ pretty ix);
  encodeAddress pk sch net := Ok (sch +:+ "@" +:+ net +:+ ":" +:+ pk)
|}%string.

(** The specification's scenarios: a keychain created with the default
    lookahead, then marked on the external chain at the given indexes. *)
Definition scenarioStore : Schema :=
  (CreateKeychain (codec := textCodec) ∅ "acct" (FromXPub "xpub") BIP44 Mainnet None).1.

Definition markExternal (indexes : list Z) (s : Schema) : Schema :=
  fold_left
    (fun s i => (MarkPathAsUsed (codec := textCodec) s "acct" (External, i)).1)
    indexes s.

(** What a scenario observes of the external chain: the max consecutive
    index, the non-consecutive indexes and the observable bound. *)
Definition observeExternal (s : Schema)
  : option (result Z * result (list Z) * result Z) :=
  (fun m => (MaxConsecutiveIndex m External, NonConsecutiveIndexes m External,
             MaxObservableIndex m External)) <$> s !! "acct"%string.

End engine.

Import keystore engine.

(** ** Arithmetic helpers *)

Lemma modulus_pos : 0 < U32.modulus.
Proof. reflexivity. Qed.

Lemma wrap_in_range (x : Z) : U32.in_range (U32.wrap x).
Proof. unfold U32.in_range, U32.wrap. apply Z.mod_pos_bound, modulus_pos. Qed.

Lemma wrap_small (x : Z) : U32.in_range x -> U32.wrap x = x.
Proof. unfold U32.in_range, U32.wrap. intros H. now apply Z.mod_small. Qed.

(** The two wrapping additions and the conversion of the length amount to one
    reduction of the exact sum. *)
Lemma add_add_of_len {A : Type} (a la : Z) (s : list A) :
  U32.add (U32.add a (U32.of_len s)) la
  = U32.wrap (a + Z.of_nat (length s) + la).
Proof.
  unfold U32.add, U32.of_len, U32.wrap.
  rewrite Zplus_mod_idemp_l.
  replace (a + Z.of_nat (length s) mod U32.modulus + la)
    with (Z.of_nat (length s) mod U32.modulus + (a + la)) by lia.
  rewrite Zplus_mod_idemp_l. f_equal. lia.
Qed.

(** ** The filter of SetNonConsecutiveIndexes *)

Lemma keepFrom_acc (mx : Z) (indexes acc : list Z) :
  fold_left
    (fun result i => if mx <=? i then result ++ [i] else result) indexes acc
  = acc ++ List.filter (fun i => mx <=? i) indexes.
Proof.
  revert acc. induction indexes as [|i indexes IH]; intros acc; simpl.
  - now rewrite app_nil_r.
  - rewrite IH. destruct (mx <=? i); simpl; [now rewrite <- app_assoc | reflexivity].
Qed.

Lemma keepFrom_filter (mx : Z) (indexes : list Z) :
  keepFrom mx indexes = List.filter (fun i => mx <=? i) indexes.
Proof. unfold keepFrom. now rewrite keepFrom_acc. Qed.

Lemma keepFrom_In (mx x : Z) (indexes : list Z) :
  In x (keepFrom mx indexes) <-> In x indexes /\ mx <= x.
Proof.
  rewrite keepFrom_filter, filter_In. now rewrite Z.leb_le.
Qed.

Lemma keepFrom_NoDup (mx : Z) (indexes : list Z) :
  List.NoDup indexes -> List.NoDup (keepFrom mx indexes).
Proof. rewrite keepFrom_filter. apply List.NoDup_filter. Qed.

Lemma wf_accounting (maxExt maxInt lookahead : Z) (ncExt ncInt : list Z) :
  U32.in_range maxExt -> U32.in_range maxInt -> U32.in_range lookahead ->
  Forall U32.in_range ncExt -> Forall U32.in_range ncInt ->
  wf_uint32 (accounting maxExt maxInt lookahead ncExt ncInt).
Proof. intros. now constructor. Qed.

(** ** Outcome of the accessors on a change tag *)

Lemma recognized_cases (c : Change) :
  {c = External} + {c = Internal} + {~ recognized c}.
Proof.
  destruct (decide (c = External)) as [->|H0]; [left; now left|].
  destruct (decide (c = Internal)) as [->|H1]; [left; now right|].
  right. intros [?|?]; contradiction.
Qed.

Lemma not_recognized_inv (c : Change) :
  ~ recognized c -> c <> External /\ c <> Internal.
Proof. unfold recognized. intros H. split; intros ->; apply H; auto. Qed.

Ltac switch_on_change :=
  repeat match goal with
  | |- context [decide (?c = External)] => destruct (decide (c = External))
  | |- context [decide (?c = Internal)] => destruct (decide (c = Internal))
  | H : context [decide (?c = External)] |- _ => destruct (decide (c = External))
  | H : context [decide (?c = Internal)] |- _ => destruct (decide (c = Internal))
  end.

Lemma unrecognized_result_Ok {T : Type} (v : T) : ~ unrecognized_result (Ok v).
Proof. intros (e & H & _). discriminate. Qed.

Lemma unrecognized_result_Wrapf {T : Type} (c : Change) :
  @unrecognized_result T (Err (Wrapf ErrUnrecognizedChange c)).
Proof. eexists; split; reflexivity. Qed.

Lemma unrecognized_error_None (m : Meta) : ~ unrecognized_error (m, None).
Proof. intros (e & H & _). discriminate. Qed.

Lemma unrecognized_error_Wrapf (m : Meta) (c : Change) :
  unrecognized_error (m, Some (Wrapf ErrUnrecognizedChange c)).
Proof. eexists; split; reflexivity. Qed.

Create HintDb keystore.
#[local] Hint Resolve unrecognized_result_Wrapf unrecognized_error_Wrapf : keystore.

Ltac iff_on_change c :=
  let H := fresh in
  split; intros H;
  [ intros [-> | ->]; simpl in H;
    first [ now apply unrecognized_result_Ok in H
          | now apply unrecognized_error_None in H ]
  | apply not_recognized_inv in H; destruct H;
    switch_on_change; try contradiction; auto with keystore ].

(** C5. Each of ChangeXPub, MaxConsecutiveIndex, SetMaxConsecutiveIndex,
    NonConsecutiveIndexes, SetNonConsecutiveIndexes and MaxObservableIndex
    returns the unrecognized-change error exactly when the change tag is
    neither External nor Internal; on External and on Internal each of them
    succeeds, the getters returning the chain's field and the setters writing
    it. *)
Theorem accessors_unrecognized_change_iff
  (m : Meta) (c : Change) (index : Z) (indexes : list Z) :
  (unrecognized_result (ChangeXPub m c) <-> ~ recognized c) /\
  (unrecognized_result (MaxConsecutiveIndex m c) <-> ~ recognized c) /\
  (unrecognized_error (SetMaxConsecutiveIndex m c index) <-> ~ recognized c) /\
  (unrecognized_result (NonConsecutiveIndexes m c) <-> ~ recognized c) /\
  (unrecognized_error (SetNonConsecutiveIndexes m c indexes) <-> ~ recognized c) /\
  (unrecognized_result (MaxObservableIndex m c) <-> ~ recognized c) /\
  (c = External ->
     ChangeXPub m c = Ok (ExternalXPub (Main m)) /\
     MaxConsecutiveIndex m c = Ok (MaxConsecutiveExternalIndex (Main m)) /\
     (exists m', SetMaxConsecutiveIndex m c index = (m', None) /\
        MaxConsecutiveExternalIndex (Main m') = index) /\
     NonConsecutiveIndexes m c = Ok (NonConsecutiveExternalIndexes (Main m)) /\
     (exists m', SetNonConsecutiveIndexes m c indexes = (m', None) /\
        NonConsecutiveExternalIndexes (Main m')
        = keepFrom (MaxConsecutiveExternalIndex (Main m)) indexes) /\
     (exists v, MaxObservableIndex m c = Ok v)) /\
  (c = Internal ->
     ChangeXPub m c = Ok (InternalXPub (Main m)) /\
     MaxConsecutiveIndex m c = Ok (MaxConsecutiveInternalIndex (Main m)) /\
     (exists m', SetMaxConsecutiveIndex m c index = (m', None) /\
        MaxConsecutiveInternalIndex (Main m') = index) /\
     NonConsecutiveIndexes m c = Ok (NonConsecutiveInternalIndexes (Main m)) /\
     (exists m', SetNonConsecutiveIndexes m c indexes = (m', None) /\
        NonConsecutiveInternalIndexes (Main m')
        = keepFrom (MaxConsecutiveInternalIndex (Main m)) indexes) /\
     (exists v, MaxObservableIndex m c = Ok v)).
Proof.
  repeat match goal with |- _ /\ _ => split end.
  - unfold ChangeXPub. iff_on_change c.
  - unfold MaxConsecutiveIndex. iff_on_change c.
  - unfold SetMaxConsecutiveIndex. iff_on_change c.
  - unfold NonConsecutiveIndexes. iff_on_change c.
  - unfold SetNonConsecutiveIndexes, MaxConsecutiveIndex. iff_on_change c.
  - unfold MaxObservableIndex. iff_on_change c.
  - intros ->. repeat apply conj; try reflexivity; eexists; split; reflexivity.
  - intros ->. repeat apply conj; try reflexivity; eexists; split; reflexivity.
Qed.

(** ** Setters: failure leaves the record alone, success touches one field *)

(** C8. On a change tag that is neither External nor Internal,
    SetMaxConsecutiveIndex and SetNonConsecutiveIndexes return an error and
    the record they were called on is exactly the record before the call. *)
Theorem setters_unchanged_on_error
  (m : Meta) (c : Change) (i : Z) (indexes : list Z) :
  ~ recognized c ->
  SetMaxConsecutiveIndex m c i = (m, Some (Wrapf ErrUnrecognizedChange c)) /\
  SetNonConsecutiveIndexes m c indexes = (m, Some (Wrapf ErrUnrecognizedChange c)).
Proof.
  intros H. apply not_recognized_inv in H. destruct H as [HE HI].
  unfold SetMaxConsecutiveIndex, SetNonConsecutiveIndexes, MaxConsecutiveIndex.
  switch_on_change; try contradiction. split; reflexivity.
Qed.

Lemma setters_unchanged_on_error_witness :
  ~ recognized 2 /\
  SetMaxConsecutiveIndex (accounting 4 2 20 [7; 9] [5]) 2 11
  = (accounting 4 2 20 [7; 9] [5], Some (Wrapf ErrUnrecognizedChange 2)) /\
  SetNonConsecutiveIndexes (accounting 4 2 20 [7; 9] [5]) 2 [12; 13]
  = (accounting 4 2 20 [7; 9] [5], Some (Wrapf ErrUnrecognizedChange 2)).
Proof.
  assert (H : ~ recognized 2) by (intros [H | H]; discriminate H).
  split; [exact H|].
  exact (setters_unchanged_on_error (accounting 4 2 20 [7; 9] [5]) 2 11 [12; 13] H).
Defined.

Lemma only_changes_intro (f : field) (m m' : Meta) :
  (forall g, g = f \/ agree_on g m m') -> only_changes f m m'.
Proof. intros H g Hg. destruct (H g) as [->|]; [contradiction | assumption]. Qed.

Ltac frame_by_cases :=
  apply only_changes_intro; intros []; simpl; auto.

(** C10. SetMaxConsecutiveIndex on External writes the given index to
    MaxConsecutiveExternalIndex and changes no other field;
    SetNonConsecutiveIndexes on External writes the filtered list to
    NonConsecutiveExternalIndexes and changes no other field; the same holds
    on Internal for the internal fields.  The fields are all those of the
    KeychainInfo, the derivation map and the address map. *)
Theorem setters_frame (m : Meta) (i : Z) (xs : list Z) :
  (exists m', SetMaxConsecutiveIndex m External i = (m', None) /\
     MaxConsecutiveExternalIndex (Main m') = i /\
     only_changes FMaxConsecutiveExternalIndex m m') /\
  (exists m', SetMaxConsecutiveIndex m Internal i = (m', None) /\
     MaxConsecutiveInternalIndex (Main m') = i /\
     only_changes FMaxConsecutiveInternalIndex m m') /\
  (exists m', SetNonConsecutiveIndexes m External xs = (m', None) /\
     NonConsecutiveExternalIndexes (Main m')
     = List.filter (fun x => MaxConsecutiveExternalIndex (Main m) <=? x) xs /\
     only_changes FNonConsecutiveExternalIndexes m m') /\
  (exists m', SetNonConsecutiveIndexes m Internal xs = (m', None) /\
     NonConsecutiveInternalIndexes (Main m')
     = List.filter (fun x => MaxConsecutiveInternalIndex (Main m) <=? x) xs /\
     only_changes FNonConsecutiveInternalIndexes m m').
Proof.
  repeat match goal with |- _ /\ _ => split end; eexists;
    (split; [reflexivity|]); (split; [|frame_by_cases]); simpl;
    try reflexivity; apply keepFrom_filter.
Qed.

(** ** The observable bound *)

Lemma chain_fields (m : Meta) (c : Change) (mx : Z) (nc : list Z) :
  MaxConsecutiveIndex m c = Ok mx ->
  NonConsecutiveIndexes m c = Ok nc ->
  (c = External /\ mx = MaxConsecutiveExternalIndex (Main m)
     /\ nc = NonConsecutiveExternalIndexes (Main m))
  \/ (c = Internal /\ mx = MaxConsecutiveInternalIndex (Main m)
     /\ nc = NonConsecutiveInternalIndexes (Main m)).
Proof.
  unfold MaxConsecutiveIndex, NonConsecutiveIndexes. intros H1 H2.
  switch_on_change; try discriminate; inversion H1; inversion H2; subst; auto.
Qed.

Lemma MaxObservableIndex_wrap (m : Meta) (c : Change) (mx : Z) (nc : list Z) :
  MaxConsecutiveIndex m c = Ok mx ->
  NonConsecutiveIndexes m c = Ok nc ->
  MaxObservableIndex m c
  = Ok (U32.wrap (exact_window mx nc (LookaheadSize (Main m)))).
Proof.
  intros H1 H2.
  destruct (chain_fields m c mx nc H1 H2) as [(-> & -> & ->) | (-> & -> & ->)];
    unfold MaxObservableIndex; simpl; now rewrite add_add_of_len.
Qed.

Lemma chain_fields_in_range (m : Meta) (c : Change) (mx : Z) (nc : list Z) :
  wf_uint32 m ->
  MaxConsecutiveIndex m c = Ok mx ->
  NonConsecutiveIndexes m c = Ok nc ->
  U32.in_range mx /\ U32.in_range (LookaheadSize (Main m)).
Proof.
  intros [] H1 H2.
  destruct (chain_fields m c mx nc H1 H2) as [(-> & -> & ->) | (-> & -> & ->)];
    auto.
Qed.

(** C2 (as amended). On External and Internal MaxObservableIndex succeeds; on
    a record of uint32 fields its value is the exact sum
    max_consecutive + |non_consecutive| + lookahead_size exactly when that
    sum is below 2^32, and is the sum reduced modulo 2^32 in every case. *)
Theorem MaxObservableIndex_exact_iff
  (m : Meta) (c : Change) (mx : Z) (nc : list Z) :
  wf_uint32 m ->
  MaxConsecutiveIndex m c = Ok mx ->
  NonConsecutiveIndexes m c = Ok nc ->
  exists v,
    MaxObservableIndex m c = Ok v /\
    v = exact_window mx nc (LookaheadSize (Main m)) mod 2 ^ 32 /\
    (v = exact_window mx nc (LookaheadSize (Main m))
     <-> exact_window mx nc (LookaheadSize (Main m)) < 2 ^ 32).
Proof.
  intros Hwf H1 H2.
  destruct (chain_fields_in_range m c mx nc Hwf H1 H2) as [Hmx Hla].
  eexists. split; [exact (MaxObservableIndex_wrap m c mx nc H1 H2)|].
  split; [reflexivity|].
  unfold U32.wrap, U32.in_range, exact_window, U32.modulus in *.
  split; intros H.
  - rewrite <- H. apply Z.mod_pos_bound. lia.
  - apply Z.mod_small. lia.
Qed.

Lemma MaxObservableIndex_exact_iff_witness :
  exists v,
    MaxObservableIndex (accounting 1 0 20 [3] []) External = Ok v /\
    v = exact_window 1 [3] 20 mod 2 ^ 32 /\
    (v = exact_window 1 [3] 20 <-> exact_window 1 [3] 20 < 2 ^ 32).
Proof.
  apply (MaxObservableIndex_exact_iff (accounting 1 0 20 [3] []) External 1 [3]).
  - apply wf_accounting; unfold U32.in_range, U32.modulus;
      repeat constructor; simpl; lia.
  - reflexivity.
  - reflexivity.
Defined.

(** C2 as stated fails: with max consecutive index 2^32 - 1, no
    non-consecutive index and lookahead 20 the exact sum is 2^32 + 19 and the
    call returns 19. *)
Lemma MaxObservableIndex_not_exact :
  wf_uint32 (accounting 4294967295 0 20 [] []) /\
  MaxConsecutiveIndex (accounting 4294967295 0 20 [] []) External = Ok 4294967295 /\
  NonConsecutiveIndexes (accounting 4294967295 0 20 [] []) External = Ok [] /\
  MaxObservableIndex (accounting 4294967295 0 20 [] []) External = Ok 19 /\
  exact_window 4294967295 [] 20 = 4294967315 /\
  MaxObservableIndex (accounting 4294967295 0 20 [] []) External
  <> Ok (exact_window 4294967295 [] 20).
Proof.
  repeat match goal with |- _ /\ _ => split end; try reflexivity.
  - apply wf_accounting; unfold U32.in_range, U32.modulus;
      repeat constructor; simpl; lia.
  - discriminate.
Qed.

(** C9 (as amended). On External and Internal MaxObservableIndex returns
    (max_consecutive + |non_consecutive| + lookahead_size) mod 2^32.  On a
    record of uint32 fields, once the exact sum reaches 2^32 the value is
    smaller than the exact sum, and it is smaller than the max consecutive
    index when |non_consecutive| + lookahead_size is itself below 2^32. *)
Theorem MaxObservableIndex_modular
  (m : Meta) (c : Change) (mx : Z) (nc : list Z) :
  MaxConsecutiveIndex m c = Ok mx ->
  NonConsecutiveIndexes m c = Ok nc ->
  exists v,
    MaxObservableIndex m c = Ok v /\
    v = exact_window mx nc (LookaheadSize (Main m)) mod 2 ^ 32 /\
    (wf_uint32 m ->
     2 ^ 32 <= exact_window mx nc (LookaheadSize (Main m)) ->
     v < exact_window mx nc (LookaheadSize (Main m)) /\
     (Z.of_nat (length nc) + LookaheadSize (Main m) < 2 ^ 32 -> v < mx)).
Proof.
  intros H1 H2.
  eexists. split; [exact (MaxObservableIndex_wrap m c mx nc H1 H2)|].
  split; [reflexivity|].
  intros Hwf Hge.
  destruct (chain_fields_in_range m c mx nc Hwf H1 H2) as [Hmx Hla].
  unfold U32.wrap, U32.in_range, exact_window, U32.modulus in *.
  split.
  - pose proof (Z.mod_pos_bound (mx + Z.of_nat (length nc) + LookaheadSize (Main m))
                  (2 ^ 32) ltac:(lia)). lia.
  - intros Hsmall.
    replace (mx + Z.of_nat (length nc) + LookaheadSize (Main m))
      with ((mx + Z.of_nat (length nc) + LookaheadSize (Main m) - 2 ^ 32)
            + 1 * 2 ^ 32) by lia.
    rewrite Z_mod_plus_full, Z.mod_small; lia.
Qed.

Lemma MaxObservableIndex_modular_witness :
  exists v,
    MaxObservableIndex (accounting 4294967290 0 20 [4294967293] []) External = Ok v /\
    v = exact_window 4294967290 [4294967293] 20 mod 2 ^ 32 /\
    (wf_uint32 (accounting 4294967290 0 20 [4294967293] []) ->
     2 ^ 32 <= exact_window 4294967290 [4294967293] 20 ->
     v < exact_window 4294967290 [4294967293] 20 /\
     (Z.of_nat (length [4294967293]) + 20 < 2 ^ 32 -> v < 4294967290)).
Proof.
  apply (MaxObservableIndex_modular
           (accounting 4294967290 0 20 [4294967293] []) External
           4294967290 [4294967293]); reflexivity.
Defined.

(** C9 as stated fails in its last part: with max consecutive index 0, one
    non-consecutive index and lookahead 2^32 - 1 the exact sum is 2^32, the
    call returns 0, and 0 is not smaller than the max consecutive index. *)
Lemma MaxObservableIndex_wrapped_not_below_max :
  wf_uint32 (accounting 0 0 4294967295 [7] []) /\
  MaxConsecutiveIndex (accounting 0 0 4294967295 [7] []) External = Ok 0 /\
  NonConsecutiveIndexes (accounting 0 0 4294967295 [7] []) External = Ok [7] /\
  2 ^ 32 <= exact_window 0 [7] 4294967295 /\
  MaxObservableIndex (accounting 0 0 4294967295 [7] []) External = Ok 0 /\
  ~ (0 < 0).
Proof.
  repeat match goal with |- _ /\ _ => split end; try reflexivity.
  - apply wf_accounting; unfold U32.in_range, U32.modulus;
      repeat constructor; simpl; lia.
  - lia.
Qed.

(** ** The stored list after SetNonConsecutiveIndexes *)

Lemma SetNonConsecutiveIndexes_stored (m : Meta) (c : Change) (indexes : list Z) :
  recognized c ->
  exists m' mx,
    SetNonConsecutiveIndexes m c indexes = (m', None) /\
    MaxConsecutiveIndex m c = Ok mx /\
    MaxConsecutiveIndex m' c = Ok mx /\
    NonConsecutiveIndexes m' c = Ok (List.filter (fun x => mx <=? x) indexes).
Proof.
  intros [-> | ->]; do 2 eexists;
    (split; [reflexivity|]); (split; [reflexivity|]); (split; [reflexivity|]);
    unfold NonConsecutiveIndexes; simpl; now rewrite keepFrom_filter.
Qed.

Lemma setter_getters (m : Meta) (c c' : Change) (i : Z) (xs : list Z) :
  NonConsecutiveIndexes (SetMaxConsecutiveIndex m c' i).1 c
  = NonConsecutiveIndexes m c /\
  MaxConsecutiveIndex (SetNonConsecutiveIndexes m c' xs).1 c
  = MaxConsecutiveIndex m c /\
  (c' <> c ->
   MaxConsecutiveIndex (SetMaxConsecutiveIndex m c' i).1 c
   = MaxConsecutiveIndex m c /\
   NonConsecutiveIndexes (SetNonConsecutiveIndexes m c' xs).1 c
   = NonConsecutiveIndexes m c).
Proof.
  unfold SetMaxConsecutiveIndex, SetNonConsecutiveIndexes, MaxConsecutiveIndex,
    NonConsecutiveIndexes.
  repeat match goal with |- _ /\ _ => split end; try intros Hne;
    repeat match goal with |- _ /\ _ => split end;
    switch_on_change; subst; simpl; try reflexivity; try discriminate;
    try contradiction.
Qed.

Lemma SetMaxConsecutiveIndex_get (m : Meta) (c : Change) (i : Z) :
  recognized c -> MaxConsecutiveIndex (SetMaxConsecutiveIndex m c i).1 c = Ok i.
Proof. now intros [-> | ->]. Qed.

Lemma at_least_max_ext (m m' : Meta) (c : Change) :
  MaxConsecutiveIndex m' c = MaxConsecutiveIndex m c ->
  NonConsecutiveIndexes m' c = NonConsecutiveIndexes m c ->
  at_least_max m c -> at_least_max m' c.
Proof. unfold at_least_max. intros -> ->. auto. Qed.

Lemma no_duplicates_ext (m m' : Meta) (c : Change) :
  NonConsecutiveIndexes m' c = NonConsecutiveIndexes m c ->
  no_duplicates m c -> no_duplicates m' c.
Proof. unfold no_duplicates. intros ->. auto. Qed.

Lemma SetNonConsecutiveIndexes_establishes (m : Meta) (c : Change) (xs : list Z) :
  recognized c -> at_least_max (SetNonConsecutiveIndexes m c xs).1 c.
Proof.
  intros Hc.
  destruct (SetNonConsecutiveIndexes_stored m c xs Hc)
    as (m' & mx & -> & _ & Hmx & Hnc).
  simpl. intros mx' nc'. rewrite Hmx, Hnc. intros [= <-] [= <-].
  apply List.Forall_forall. intros x Hx.
  apply filter_In in Hx. destruct Hx as [_ Hx]. now apply Z.leb_le.
Qed.

(** C1 (as amended). After a call of SetNonConsecutiveIndexes on External or
    Internal the call has succeeded and every element of the chain's
    non-consecutive list is greater than or equal to the chain's max
    consecutive index; an element of the argument equal to the max
    consecutive index is kept.  The bound, once it holds for a chain, is kept
    by every later SetNonConsecutiveIndexes, by SetMaxConsecutiveIndex on the
    other chain, and by SetMaxConsecutiveIndex on the chain itself with an
    index that does not exceed the current one. *)
Theorem SetNonConsecutiveIndexes_at_least_max
  (m : Meta) (c : Change) (indexes : list Z) :
  recognized c ->
  (exists m' mx nc,
     SetNonConsecutiveIndexes m c indexes = (m', None) /\
     MaxConsecutiveIndex m' c = Ok mx /\
     NonConsecutiveIndexes m' c = Ok nc /\
     at_least_max m' c /\
     (forall x, In x nc <-> In x indexes /\ mx <= x) /\
     (In mx indexes -> In mx nc)) /\
  (at_least_max m c ->
   (forall c' xs, at_least_max (SetNonConsecutiveIndexes m c' xs).1 c) /\
   (forall c' i, c' <> c -> at_least_max (SetMaxConsecutiveIndex m c' i).1 c) /\
   (forall i mx, MaxConsecutiveIndex m c = Ok mx -> i <= mx ->
                 at_least_max (SetMaxConsecutiveIndex m c i).1 c)).
Proof.
  intros Hc. split.
  - pose proof (SetNonConsecutiveIndexes_establishes m c indexes Hc) as Hest.
    destruct (SetNonConsecutiveIndexes_stored m c indexes Hc)
      as (m' & mx & Hset & _ & Hmx & Hnc).
    rewrite Hset in Hest. simpl in Hest.
    exists m', mx, (List.filter (fun x => mx <=? x) indexes).
    assert (Hin : forall x,
               In x (List.filter (fun x => mx <=? x) indexes)
               <-> In x indexes /\ mx <= x).
    { intros x. rewrite filter_In. now rewrite Z.leb_le. }
    repeat match goal with |- _ /\ _ => split end; auto.
    intros H. apply Hin. split; [assumption | lia].
  - intros Hinv. repeat match goal with |- _ /\ _ => split end.
    + intros c' xs. destruct (decide (c' = c)) as [-> | Hne].
      * now apply SetNonConsecutiveIndexes_establishes.
      * destruct (setter_getters m c c' 0 xs) as (_ & G1 & G2).
        destruct (G2 Hne) as [_ G3]. now apply (at_least_max_ext m).
    + intros c' i Hne.
      destruct (setter_getters m c c' i []) as (G0 & _ & G2).
      destruct (G2 Hne) as [G3 _]. now apply (at_least_max_ext m).
    + intros i mx Hmx Hle mx' nc'.
      destruct (setter_getters m c c i []) as (G0 & _ & _).
      rewrite G0, (SetMaxConsecutiveIndex_get m c i Hc).
      intros [= <-] Hnc. specialize (Hinv mx nc' Hmx Hnc).
      eapply List.Forall_impl; [|exact Hinv]. simpl. intros x Hx. lia.
Qed.

Lemma SetNonConsecutiveIndexes_at_least_max_witness :
  recognized External /\
  (exists m' mx nc,
     SetNonConsecutiveIndexes (accounting 3 0 20 [] []) External [1; 3; 8]
     = (m', None) /\
     MaxConsecutiveIndex m' External = Ok mx /\
     NonConsecutiveIndexes m' External = Ok nc /\
     at_least_max m' External /\
     (forall x, In x nc <-> In x [1; 3; 8] /\ mx <= x) /\
     (In mx [1; 3; 8] -> In mx nc)) /\
  (at_least_max (accounting 3 0 20 [] []) External ->
   (forall c' xs,
      at_least_max (SetNonConsecutiveIndexes (accounting 3 0 20 [] []) c' xs).1
        External) /\
   (forall c' i, c' <> External ->
      at_least_max (SetMaxConsecutiveIndex (accounting 3 0 20 [] []) c' i).1
        External) /\
   (forall i mx, MaxConsecutiveIndex (accounting 3 0 20 [] []) External = Ok mx ->
      i <= mx ->
      at_least_max (SetMaxConsecutiveIndex (accounting 3 0 20 [] []) External i).1
        External)).
Proof.
  split; [now left|].
  apply (SetNonConsecutiveIndexes_at_least_max
           (accounting 3 0 20 [] []) External [1; 3; 8]).
  now left.
Defined.

(** C1 as stated fails: with max consecutive index 3, setting the
    non-consecutive indexes of External to [3] stores [3], and 3 is not
    strictly greater than 3. *)
Lemma SetNonConsecutiveIndexes_not_strictly_above :
  SetNonConsecutiveIndexes (accounting 3 0 20 [] []) External [3]
  = (accounting 3 0 20 [3] [], None) /\
  ~ strictly_above_max
      (SetNonConsecutiveIndexes (accounting 3 0 20 [] []) External [3]).1 External.
Proof.
  split; [reflexivity|].
  intros H. specialize (H 3 [3] eq_refl eq_refl).
  inversion H; subst. lia.
Qed.

(** SetMaxConsecutiveIndex assigns the index and does not filter the
    non-consecutive indexes: raising the index from 0 to 10 over the list [3]
    leaves [3] below it, until SetNonConsecutiveIndexes is called. *)
Example SetMaxConsecutiveIndex_does_not_filter :
  strictly_above_max (accounting 0 0 20 [3] []) External /\
  SetMaxConsecutiveIndex (accounting 0 0 20 [3] []) External 10
  = (accounting 10 0 20 [3] [], None) /\
  ~ at_least_max (accounting 10 0 20 [3] []) External /\
  SetNonConsecutiveIndexes (accounting 10 0 20 [3] []) External [3]
  = (accounting 10 0 20 [] [], None).
Proof.
  repeat match goal with |- _ /\ _ => split end; try reflexivity.
  - intros mx nc [= <-] [= <-]. repeat constructor.
  - intros H. specialize (H 10 [3] eq_refl eq_refl). inversion H; subst. lia.
Qed.

(** C4 (as amended). SetNonConsecutiveIndexes on External or Internal stores
    the elements of its argument that are at least the max consecutive index,
    each as many times as the argument holds it; the stored list has no
    duplicate whenever the argument has none.  A list without duplicates
    stays so under SetMaxConsecutiveIndex and under the setters of the other
    chain. *)
Theorem SetNonConsecutiveIndexes_keeps_multiplicity
  (m : Meta) (c : Change) (indexes : list Z) :
  recognized c ->
  (exists m' mx nc,
     SetNonConsecutiveIndexes m c indexes = (m', None) /\
     MaxConsecutiveIndex m c = Ok mx /\
     NonConsecutiveIndexes m' c = Ok nc /\
     (forall x, mx <= x -> count_occ Z.eq_dec nc x = count_occ Z.eq_dec indexes x) /\
     (forall x, x < mx -> count_occ Z.eq_dec nc x = 0%nat) /\
     (List.NoDup indexes -> no_duplicates m' c)) /\
  (no_duplicates m c ->
   (forall c' i, no_duplicates (SetMaxConsecutiveIndex m c' i).1 c) /\
   (forall c' xs, c' <> c -> no_duplicates (SetNonConsecutiveIndexes m c' xs).1 c)).
Proof.
  intros Hc. split.
  - destruct (SetNonConsecutiveIndexes_stored m c indexes Hc)
      as (m' & mx & Hset & Hmx0 & Hmx & Hnc).
    exists m', mx, (List.filter (fun x => mx <=? x) indexes).
    repeat match goal with |- _ /\ _ => split end; auto.
    + intros x Hx. clear -Hx.
      induction indexes as [|i indexes IH]; simpl; [reflexivity|].
      destruct (mx <=? i) eqn:Hi; simpl.
      * destruct (Z.eq_dec i x); now rewrite IH.
      * apply Z.leb_gt in Hi. destruct (Z.eq_dec i x); [lia | exact IH].
    + intros x Hx. apply count_occ_not_In. rewrite filter_In, Z.leb_le. lia.
    + intros Hnd nc' Hnc'. rewrite Hnc in Hnc'. inversion Hnc'; subst.
      now apply List.NoDup_filter.
  - intros Hinv. split.
    + intros c' i. destruct (setter_getters m c c' i []) as (G0 & _ & _).
      now apply (no_duplicates_ext m).
    + intros c' xs Hne. destruct (setter_getters m c c' 0 xs) as (_ & _ & G2).
      destruct (G2 Hne) as [_ G3]. now apply (no_duplicates_ext m).
Qed.

Lemma SetNonConsecutiveIndexes_keeps_multiplicity_witness :
  recognized Internal /\
  (exists m' mx nc,
     SetNonConsecutiveIndexes (accounting 0 2 20 [] []) Internal [1; 4; 6]
     = (m', None) /\
     MaxConsecutiveIndex (accounting 0 2 20 [] []) Internal = Ok mx /\
     NonConsecutiveIndexes m' Internal = Ok nc /\
     (forall x, mx <= x ->
        count_occ Z.eq_dec nc x = count_occ Z.eq_dec [1; 4; 6] x) /\
     (forall x, x < mx -> count_occ Z.eq_dec nc x = 0%nat) /\
     (List.NoDup [1; 4; 6] -> no_duplicates m' Internal)) /\
  (no_duplicates (accounting 0 2 20 [] []) Internal ->
   (forall c' i,
      no_duplicates (SetMaxConsecutiveIndex (accounting 0 2 20 [] []) c' i).1
        Internal) /\
   (forall c' xs, c' <> Internal ->
      no_duplicates (SetNonConsecutiveIndexes (accounting 0 2 20 [] []) c' xs).1
        Internal)).
Proof.
  split; [now right|].
  apply (SetNonConsecutiveIndexes_keeps_multiplicity
           (accounting 0 2 20 [] []) Internal [1; 4; 6]).
  now right.
Defined.

(** C4 as stated fails: setting the non-consecutive indexes of External to
    [5; 5] stores [5; 5]. *)
Lemma SetNonConsecutiveIndexes_keeps_duplicates :
  SetNonConsecutiveIndexes (accounting 0 0 20 [] []) External [5; 5]
  = (accounting 0 0 20 [5; 5] [], None) /\
  ~ no_duplicates
      (SetNonConsecutiveIndexes (accounting 0 0 20 [] []) External [5; 5]).1 External.
Proof.
  split; [reflexivity|].
  intros H. specialize (H [5; 5] eq_refl).
  inversion H as [|x l Hnotin _]; subst. apply Hnotin. now left.
Qed.

(** ** The engine: gap closure *)

Lemma fold_min_In (nc : list Z) (x : Z) : In (fold_left Z.min nc x) (x :: nc).
Proof.
  revert x. induction nc as [|y nc IH]; intros x; simpl; [now left|].
  destruct (IH (Z.min x y)) as [Heq | Hin].
  - rewrite <- Heq.
    destruct (Z.min_spec x y) as [[_ ->] | [_ ->]]; simpl; auto.
  - simpl. auto.
Qed.

Lemma smallest_In (nc : list Z) (x : Z) : smallest nc = Some x -> In x nc.
Proof.
  destruct nc as [|y nc]; simpl; [discriminate|].
  intros [= <-]. apply fold_min_In.
Qed.

Lemma fold_min_le (nc : list Z) (x y : Z) :
  In y (x :: nc) -> fold_left Z.min nc x <= y.
Proof.
  revert x y. induction nc as [|z nc IH]; intros x y; simpl.
  - intros [-> | []]. lia.
  - pose proof (IH (Z.min x z) (Z.min x z) (or_introl eq_refl)) as Hmin.
    intros [-> | [-> | Hin]]; [lia | lia |].
    apply IH. now right.
Qed.

Lemma smallest_le (nc : list Z) (x y : Z) :
  smallest nc = Some x -> In y nc -> x <= y.
Proof.
  destruct nc as [|z nc]; simpl; [discriminate|].
  intros [= <-]. apply fold_min_le.
Qed.

(** The length of the list is fuel enough: [closeGaps] runs the loop to its
    exit. *)
Lemma closeGaps_gap_closure (fuel : nat) (mx : Z) (nc : list Z) :
  (length nc <= fuel)%nat -> gap_closure (mx, nc) (closeGaps fuel mx nc).
Proof.
  revert mx nc. induction fuel as [|fuel IH]; intros mx nc Hlen; simpl.
  - destruct nc; [|simpl in Hlen; lia]. now constructor.
  - destruct (smallest nc) as [x|] eqn:Hs; [|constructor; congruence].
    destruct (Z.eqb_spec x mx) as [-> | Hne].
    + apply gap_closure_step; [assumption|]. apply IH.
      pose proof (remove_length_lt Z.eq_dec nc mx (smallest_In _ _ Hs)). lia.
    + constructor. rewrite Hs. congruence.
Qed.

(** The loop is deterministic: the relation has one outcome. *)
Lemma gap_closure_fun (a r1 r2 : Z * list Z) :
  gap_closure a r1 -> gap_closure a r2 -> r1 = r2.
Proof.
  intros H1. revert r2. induction H1 as [mx nc Hd | mx nc r Hs _ IH]; intros r2 H2.
  - inversion H2; subst; [reflexivity | contradiction].
  - inversion H2; subst; [contradiction | now apply IH].
Qed.

Lemma insertIndex_In (i x : Z) (nc : list Z) :
  In x (insertIndex i nc) <-> x = i \/ In x nc.
Proof.
  unfold insertIndex. destruct (in_dec Z.eq_dec i nc) as [Hin | Hnin].
  - split; [auto | intros [-> | ?]; assumption].
  - rewrite in_app_iff. simpl. intuition.
Qed.

Lemma insertIndex_present (i : Z) (nc : list Z) :
  In i nc -> insertIndex i nc = nc.
Proof. unfold insertIndex. now destruct (in_dec Z.eq_dec i nc). Qed.

(** ** The engine: what the cache maintenance leaves alone *)

Section EngineFacts.
Context {codec : Codec}.

Lemma same_keys_refl (m : Meta) : same_keys m m.
Proof. repeat split. Qed.

Lemma same_Main_keys (m m' : Meta) : Main m' = Main m -> same_keys m m'.
Proof. intros E. unfold same_keys. now rewrite E. Qed.

Lemma addressAt_same_keys (m m' : Meta) (path : DerivationPath) :
  same_keys m m' -> addressAt m' path = addressAt m path.
Proof.
  intros (HE & HI & Hs & Hn).
  unfold addressAt, publicKeyAt, addressOf, ChangeXPub.
  now rewrite HE, HI, Hs, Hn.
Qed.

Lemma getters_same_Main (m m' : Meta) (c : Change) :
  Main m' = Main m ->
  MaxConsecutiveIndex m' c = MaxConsecutiveIndex m c /\
  NonConsecutiveIndexes m' c = NonConsecutiveIndexes m c /\
  MaxObservableIndex m' c = MaxObservableIndex m c.
Proof.
  intros E. unfold MaxConsecutiveIndex, NonConsecutiveIndexes, MaxObservableIndex.
  now rewrite E.
Qed.

(** A derivation on demand keeps the KeychainInfo and every entry the cache
    holds, and the path has an entry afterwards. *)
Lemma ensureDerived_inv (m m' : Meta) (path : DerivationPath) :
  ensureDerived m path = Ok m' ->
  Main m' = Main m /\
  is_Some (Derivations m' !! path) /\
  (forall q d, Derivations m !! q = Some d -> Derivations m' !! q = Some d).
Proof.
  unfold ensureDerived. destruct (Derivations m !! path) as [d0|] eqn:E.
  - intros [= <-]. repeat split; eauto.
  - destruct (publicKeyAt m path) as [pk|]; simpl; [|discriminate].
    destruct (addressOf m pk); simpl; [|discriminate]. intros [= <-]. simpl.
    repeat split.
    + rewrite lookup_insert_eq. eauto.
    + intros q d Hq. rewrite lookup_insert_ne; [assumption|].
      intros ->. congruence.
Qed.

Lemma ensureDerived_ok (m : Meta) (path : DerivationPath) :
  (exists a, addressAt m path = Ok a) -> exists m', ensureDerived m path = Ok m'.
Proof.
  intros [a Ha]. unfold ensureDerived.
  destruct (Derivations m !! path); [eauto|].
  unfold addressAt in Ha.
  destruct (publicKeyAt m path) as [pk|]; simpl in *; [|discriminate].
  rewrite Ha. simpl. eauto.
Qed.

Lemma foldResult_ensureDerived_inv (paths : list DerivationPath) (m m' : Meta) :
  foldResult ensureDerived paths m = Ok m' ->
  Main m' = Main m /\
  (forall q d, Derivations m !! q = Some d -> Derivations m' !! q = Some d).
Proof.
  revert m. induction paths as [|p paths IH]; intros m; simpl.
  - intros [= <-]. auto.
  - destruct (ensureDerived m p) as [m1|] eqn:E1; simpl; [|discriminate].
    intros Hf. destruct (ensureDerived_inv m m1 p E1) as (M1 & _ & K1).
    destruct (IH m1 Hf) as (M2 & K2). split; [congruence | auto].
Qed.

Lemma foldResult_ensureDerived_ok (paths : list DerivationPath) (m : Meta) :
  (forall p, In p paths -> exists a, addressAt m p = Ok a) ->
  exists m', foldResult ensureDerived paths m = Ok m'.
Proof.
  revert m. induction paths as [|p paths IH]; intros m Hd; simpl; [eauto|].
  destruct (ensureDerived_ok m p (Hd p (or_introl eq_refl))) as [m1 E1].
  rewrite E1. simpl. apply IH. intros q Hq.
  destruct (ensureDerived_inv m m1 p E1) as (M1 & _ & _).
  rewrite (addressAt_same_keys m m1); [|now apply same_Main_keys].
  apply Hd. now right.
Qed.

Lemma extendWindow_inv (m m' : Meta) (c : Change) :
  extendWindow m c = Ok m' ->
  Main m' = Main m /\
  (forall q d, Derivations m !! q = Some d -> Derivations m' !! q = Some d).
Proof.
  unfold extendWindow. destruct (MaxObservableIndex m c); simpl; [|discriminate].
  apply foldResult_ensureDerived_inv.
Qed.

Lemma extendWindow_ok (m : Meta) (c : Change) (bound : Z) :
  MaxObservableIndex m c = Ok bound ->
  (forall k, 0 <= k < bound -> exists a, addressAt m (c, k) = Ok a) ->
  exists m', extendWindow m c = Ok m'.
Proof.
  intros Hb Hd. unfold extendWindow. rewrite Hb. simpl.
  apply foldResult_ensureDerived_ok. intros p Hp.
  apply in_map_iff in Hp. destruct Hp as (k & <- & Hk).
  apply in_seq in Hk. apply Hd. lia.
Qed.

Lemma setUsed_inv (m m' : Meta) (path : DerivationPath) :
  setUsed m path = Ok m' ->
  Main m' = Main m /\
  (exists d, Derivations m' !! path = Some d /\ Used d = true).
Proof.
  unfold setUsed. destruct (ensureDerived m path) as [m1|] eqn:E1; simpl;
    [|discriminate].
  intros [= <-]. simpl.
  destruct (ensureDerived_inv m m1 path E1) as (M1 & [d Hd] & _).
  split; [exact M1|]. rewrite lookup_alter_eq, Hd. simpl. eauto.
Qed.

Lemma setUsed_ok (m : Meta) (path : DerivationPath) :
  (exists a, addressAt m path = Ok a) -> exists m', setUsed m path = Ok m'.
Proof.
  intros Hd. unfold setUsed.
  destruct (ensureDerived_ok m path Hd) as [m1 ->]. simpl. eauto.
Qed.

Lemma putAccounting_get (m : Meta) (c : Change) (mx : Z) (nc : list Z) :
  recognized c ->
  MaxConsecutiveIndex (putAccounting c mx nc m) c = Ok mx /\
  NonConsecutiveIndexes (putAccounting c mx nc m) c = Ok nc /\
  LookaheadSize (Main (putAccounting c mx nc m)) = LookaheadSize (Main m) /\
  same_keys m (putAccounting c mx nc m).
Proof. intros [-> | ->]; repeat split. Qed.

Lemma putAccounting_other (m : Meta) (c c' : Change) (mx : Z) (nc : list Z) :
  c' <> c ->
  MaxConsecutiveIndex (putAccounting c mx nc m) c' = MaxConsecutiveIndex m c' /\
  NonConsecutiveIndexes (putAccounting c mx nc m) c' = NonConsecutiveIndexes m c'.
Proof.
  intros Hne. unfold putAccounting, MaxConsecutiveIndex, NonConsecutiveIndexes.
  split; switch_on_change; subst; simpl; try reflexivity; try contradiction;
    try discriminate.
Qed.

Lemma getters_recognized (m : Meta) (c : Change) (mx : Z) :
  MaxConsecutiveIndex m c = Ok mx -> recognized c.
Proof.
  unfold MaxConsecutiveIndex, recognized.
  switch_on_change; auto; discriminate.
Qed.

(** The accounting of [accountIndex] at or above the max consecutive index,
    read as the specification words it. *)
Lemma accountIndex_cases (mx : Z) (nc : list Z) (i : Z) :
  mx <= i ->
  (i = mx ->
   gap_closure (mx + 1, nc) ((accountIndex mx nc i).1, (accountIndex mx nc i).2)) /\
  (mx < i ->
   (accountIndex mx nc i).1 = mx /\
   (In i nc -> (accountIndex mx nc i).2 = nc) /\
   (~ In i nc -> (accountIndex mx nc i).2 = nc ++ [i])).
Proof.
  intros Hle. unfold accountIndex.
  destruct (Z.ltb_spec i mx) as [Hlt | _]; [lia|].
  destruct (Z.eqb_spec i mx) as [-> | Hne].
  - split; [|lia]. intros _.
    rewrite <- surjective_pairing. now apply closeGaps_gap_closure.
  - split; [intros ->; contradiction|]. intros _. simpl.
    split; [reflexivity|]. unfold insertIndex.
    split; intros Hin; destruct (in_dec Z.eq_dec i nc); auto; contradiction.
Qed.

(** Whatever the codec, a mark at or above the max consecutive index that
    returns a record returns one accounted for as [marked] says. *)
Lemma markPath_inv (m m' : Meta) (c : Change) (i mx : Z) (nc : list Z) :
  MaxConsecutiveIndex m c = Ok mx ->
  NonConsecutiveIndexes m c = Ok nc ->
  mx <= i ->
  markPath (c, i) m = Ok m' ->
  marked m c i mx nc m'.
Proof.
  intros Hmx Hnc Hle.
  pose proof (getters_recognized m c mx Hmx) as Hc.
  unfold markPath. simpl. rewrite Hmx, Hnc. simpl.
  destruct (Z.ltb_spec i mx) as [Hlt | _]; [lia|].
  destruct (accountIndex_cases mx nc i Hle) as [Heq Hgt].
  destruct (accountIndex mx nc i) as [mx' nc']. simpl in Heq, Hgt.
  destruct (setUsed (putAccounting c mx' nc' m) (c, i)) as [m1|] eqn:E1; simpl;
    [|discriminate].
  intros E2.
  destruct (setUsed_inv _ _ _ E1) as (M1 & d & Hd & Hused).
  destruct (extendWindow_inv _ _ _ E2) as (M2 & K2).
  assert (M : Main m' = Main (putAccounting c mx' nc' m)) by congruence.
  destruct (putAccounting_get m c mx' nc' Hc) as (Pmx & Pnc & _ & _).
  exists mx', nc'.
  destruct (getters_same_Main (putAccounting c mx' nc' m) m' c M) as (G1 & G2 & _).
  repeat match goal with |- _ /\ _ => split end.
  - now rewrite G1.
  - now rewrite G2.
  - exact Heq.
  - exact Hgt.
  - exists d. split; [now apply K2 | exact Hused].
  - intros c' Hne.
    destruct (getters_same_Main (putAccounting c mx' nc' m) m' c' M) as (O1 & O2 & _).
    destruct (putAccounting_other m c c' mx' nc' Hne) as (P1 & P2).
    split; congruence.
Qed.

(** The mark returns a record when the codec derives the marked path and the
    paths of the window the mark extends the cache to. *)
Lemma markPath_ok (m : Meta) (c : Change) (i mx : Z) (nc : list Z) :
  MaxConsecutiveIndex m c = Ok mx ->
  NonConsecutiveIndexes m c = Ok nc ->
  mx <= i ->
  (exists a, addressAt m (c, i) = Ok a) ->
  (forall k, 0 <= k < boundAfterMark mx nc i (LookaheadSize (Main m)) ->
             exists a, addressAt m (c, k) = Ok a) ->
  exists m', markPath (c, i) m = Ok m'.
Proof.
  intros Hmx Hnc Hle Hi Hw.
  pose proof (getters_recognized m c mx Hmx) as Hc.
  unfold markPath. simpl. rewrite Hmx, Hnc. simpl.
  destruct (Z.ltb_spec i mx) as [Hlt | _]; [lia|].
  unfold boundAfterMark in Hw.
  destruct (accountIndex mx nc i) as [mx' nc']. simpl in Hw.
  destruct (putAccounting_get m c mx' nc' Hc) as (Pmx & Pnc & Pla & Pk).
  destruct (setUsed_ok (putAccounting c mx' nc' m) (c, i)) as [m1 E1].
  { now rewrite (addressAt_same_keys m). }
  rewrite E1. simpl.
  destruct (setUsed_inv _ _ _ E1) as (M1 & _).
  destruct (getters_same_Main (putAccounting c mx' nc' m) m1 c M1) as (G1 & G2 & _).
  apply (extendWindow_ok m1 c
           (U32.wrap (exact_window mx' nc' (LookaheadSize (Main m))))).
  - rewrite (MaxObservableIndex_wrap m1 c mx' nc'); [|congruence|congruence].
    now rewrite M1, Pla.
  - intros k Hk. rewrite (addressAt_same_keys m m1); [now apply Hw|].
    destruct Pk as (? & ? & ? & ?). unfold same_keys. rewrite M1. auto.
Qed.

End EngineFacts.

(** ** The engine: marking a path as used *)

(** C3. MarkPathAsUsed on the path (C, i) of a stored record.  When i is
    below the max consecutive index of C the store is unchanged.  Otherwise
    the call either fails and leaves the store unchanged, or replaces the
    record by one in which: when i equals the max consecutive index, the
    index is incremented and the gap-closure loop has run from there (while
    the smallest non-consecutive index equals the max consecutive index, it
    is removed and the index incremented); when i is above it, the index
    stays and i is inserted into the non-consecutive indexes (appended when
    absent, the list left as it is when present); the path is flagged used
    and the other chain's accounting is untouched.  The call goes through
    whenever the codec derives the marked path and the paths below the
    observable bound that results; no other index needs a key. *)
Theorem MarkPathAsUsed_cases {codec : Codec}
  (s : Schema) (descriptor : string) (m : Meta) (C : Change) (i mx : Z)
  (nc : list Z) :
  s !! descriptor = Some m ->
  MaxConsecutiveIndex m C = Ok mx ->
  NonConsecutiveIndexes m C = Ok nc ->
  (i < mx -> MarkPathAsUsed s descriptor (C, i) = (s, None)) /\
  (mx <= i ->
   (exists e, MarkPathAsUsed s descriptor (C, i) = (s, Some e)) \/
   (exists m',
      MarkPathAsUsed s descriptor (C, i) = (<[descriptor := m']> s, None) /\
      marked m C i mx nc m')) /\
  (mx <= i ->
   (exists a, addressAt m (C, i) = Ok a) ->
   (forall k, 0 <= k < boundAfterMark mx nc i (LookaheadSize (Main m)) ->
              exists a, addressAt m (C, k) = Ok a) ->
   exists m',
     MarkPathAsUsed s descriptor (C, i) = (<[descriptor := m']> s, None) /\
     marked m C i mx nc m').
Proof.
  intros Hs Hmx Hnc. repeat match goal with |- _ /\ _ => split end.
  - intros Hlt. unfold MarkPathAsUsed, Update. rewrite Hs.
    unfold markPath. simpl. rewrite Hmx, Hnc. simpl.
    destruct (Z.ltb_spec i mx) as [_ | Hge]; [|lia].
    now rewrite insert_id.
  - intros Hle. unfold MarkPathAsUsed, Update. rewrite Hs.
    destruct (markPath (C, i) m) as [m'|e] eqn:E; [right | left; eauto].
    exists m'. split; [reflexivity|].
    exact (markPath_inv m m' C i mx nc Hmx Hnc Hle E).
  - intros Hle Hi Hw.
    destruct (markPath_ok m C i mx nc Hmx Hnc Hle Hi Hw) as [m' E].
    exists m'. split.
    + unfold MarkPathAsUsed, Update. now rewrite Hs, E.
    + exact (markPath_inv m m' C i mx nc Hmx Hnc Hle E).
Qed.

Lemma MarkPathAsUsed_cases_witness :
  (({[ "acct"%string := accounting 2 0 20 [3; 5] [] ]} : Schema) !! "acct"%string
   = Some (accounting 2 0 20 [3; 5] []) /\
   childPublicKey (Codec := hardenedCodec) "" (2 ^ 31)
   = Err (ErrCodec "HARDENED_INDEX") /\
   boundAfterMark 2 [3; 5] 2 20 = 25 /\
   (exists a, addressAt (codec := hardenedCodec) (accounting 2 0 20 [3; 5] [])
                (External, 2) = Ok a) /\
   (forall k, 0 <= k < boundAfterMark 2 [3; 5] 2 20 ->
      exists a, addressAt (codec := hardenedCodec) (accounting 2 0 20 [3; 5] [])
                  (External, k) = Ok a)) /\
  (2 < 2 ->
   MarkPathAsUsed (codec := hardenedCodec)
     {[ "acct"%string := accounting 2 0 20 [3; 5] [] ]} "acct" (External, 2)
   = ({[ "acct"%string := accounting 2 0 20 [3; 5] [] ]}, None)) /\
  (2 <= 2 ->
   (exists e,
      MarkPathAsUsed (codec := hardenedCodec)
        {[ "acct"%string := accounting 2 0 20 [3; 5] [] ]} "acct" (External, 2)
      = ({[ "acct"%string := accounting 2 0 20 [3; 5] [] ]}, Some e)) \/
   (exists m',
      MarkPathAsUsed (codec := hardenedCodec)
        {[ "acct"%string := accounting 2 0 20 [3; 5] [] ]} "acct" (External, 2)
      = (<["acct"%string := m']> {[ "acct"%string := accounting 2 0 20 [3; 5] [] ]},
         None) /\
      marked (accounting 2 0 20 [3; 5] []) External 2 2 [3; 5] m')) /\
  (2 <= 2 ->
   (exists a, addressAt (codec := hardenedCodec) (accounting 2 0 20 [3; 5] [])
                (External, 2) = Ok a) ->
   (forall k, 0 <= k < boundAfterMark 2 [3; 5] 2 20 ->
      exists a, addressAt (codec := hardenedCodec) (accounting 2 0 20 [3; 5] [])
                  (External, k) = Ok a) ->
   exists m',
     MarkPathAsUsed (codec := hardenedCodec)
       {[ "acct"%string := accounting 2 0 20 [3; 5] [] ]} "acct" (External, 2)
     = (<["acct"%string := m']> {[ "acct"%string := accounting 2 0 20 [3; 5] [] ]},
        None) /\
     marked (accounting 2 0 20 [3; 5] []) External 2 2 [3; 5] m').
Proof.
  assert (Hs : ({[ "acct"%string := accounting 2 0 20 [3; 5] [] ]} : Schema)
               !! "acct"%string = Some (accounting 2 0 20 [3; 5] []))
    by (vm_compute; reflexivity).
  split.
  - split; [exact Hs|]. split; [reflexivity|]. split; [reflexivity|].
    split; [eexists; reflexivity|].
    intros k Hk. replace (boundAfterMark 2 [3; 5] 2 20) with 25 in Hk by reflexivity.
    unfold addressAt, publicKeyAt, ChangeXPub. simpl. unfold nonHardened.
    destruct (Z.leb_spec 0 k); [|lia].
    destruct (Z.ltb_spec k (2 ^ 31)); [|lia].
    simpl. eexists. reflexivity.
  - exact (MarkPathAsUsed_cases (codec := hardenedCodec)
             {[ "acct"%string := accounting 2 0 20 [3; 5] [] ]} "acct"
             (accounting 2 0 20 [3; 5] []) External 2 2 [3; 5]
             Hs eq_refl eq_refl).
Defined.

(** With the codec that refuses hardened indexes the marks of the scenarios
    go through: index 2, at the max consecutive index, closes the gap at 3
    and leaves 5 aside; index 9, above it, is appended; index 9 again leaves
    the list as it is; a hardened index fails and persists nothing. *)
Example MarkPathAsUsed_hardened_codec :
  let s : Schema := {[ "acct"%string := accounting 2 0 20 [3; 5] [] ]} in
  let mark s i := MarkPathAsUsed (codec := hardenedCodec) s "acct" (External, i) in
  let view (r : Schema * option error) :=
    (r.2, (fun m => (MaxConsecutiveIndex m External,
                     NonConsecutiveIndexes m External,
                     Used <$> Derivations m !! (External, 2),
                     Used <$> Derivations m !! (External, 9)))
          <$> r.1 !! "acct"%string) in
  view (mark s 2) = (None, Some (Ok 4, Ok [5], Some true, Some false)) /\
  view (mark s 9) = (None, Some (Ok 2, Ok [3; 5; 9], Some false, Some true)) /\
  view (mark (mark s 9).1 9) = (None, Some (Ok 2, Ok [3; 5; 9], Some false, Some true)) /\
  mark s (2 ^ 31) = (s, Some (ErrCodec "HARDENED_INDEX")).
Proof. repeat split; vm_compute; reflexivity. Qed.

(** ** The engine: fresh addresses *)

Lemma traverse_seq {B : Type} (f : Z -> result B) (base : Z) (start len : nat) :
  (forall k, (start <= k < start + len)%nat ->
             exists b, f (base + Z.of_nat k) = Ok b) ->
  exists bs,
    traverse f (map (fun k => base + Z.of_nat k) (seq start len)) = Ok bs /\
    length bs = len /\
    (forall j, (j < len)%nat ->
               exists b, bs !! j = Some b /\ f (base + Z.of_nat (start + j)) = Ok b).
Proof.
  revert start. induction len as [|len IH]; intros start Hf; simpl.
  - exists []. repeat split. intros j Hj. lia.
  - destruct (Hf start ltac:(lia)) as [b Hb]. rewrite Hb. simpl.
    destruct (IH (S start)) as (bs & -> & Hlen & Hbs).
    { intros k Hk. apply Hf. lia. }
    simpl. exists (b :: bs). split; [reflexivity|]. split; [simpl; lia|].
    intros [|j] Hj.
    + exists b. split; [reflexivity|]. now rewrite Nat.add_0_r.
    + destruct (Hbs j ltac:(lia)) as (b' & Hl & Hb'). exists b'.
      split; [exact Hl|]. now replace (start + S j)%nat with (S start + j)%nat by lia.
Qed.

(** C6. With base the max consecutive index of the chain,
    GetFreshAddresses(descriptor, change, n) returns n addresses, the k-th
    being the address at the path (change, base + k), in that order; the
    store it returns is the store it was given, whatever the arguments; and a
    second call gives the same outcome as the first. *)
Theorem GetFreshAddresses_fresh {codec : Codec}
  (s : Schema) (descriptor : string) (m : Meta) (change : Change) (base n : Z) :
  s !! descriptor = Some m ->
  MaxConsecutiveIndex m change = Ok base ->
  (forall k, 0 <= k < n -> exists a, addressAt m (change, base + k) = Ok a) ->
  (exists addrs,
     GetFreshAddresses s descriptor change n = (s, Ok addrs) /\
     length addrs = Z.to_nat n /\
     (forall k, 0 <= k < n ->
        exists a, addrs !! Z.to_nat k = Some a /\
                  addressAt m (change, base + k) = Ok a)) /\
  (forall d c size, (GetFreshAddresses s d c size).1 = s) /\
  GetFreshAddresses (GetFreshAddresses s descriptor change n).1 descriptor change n
  = GetFreshAddresses s descriptor change n.
Proof.
  intros Hs Hbase Hd. split; [|split; reflexivity].
  destruct (traverse_seq (fun j => addressAt m (change, j)) base 0 (Z.to_nat n))
    as (addrs & Ht & Hlen & Hk).
  { intros k Hk. apply Hd. lia. }
  exists addrs. split.
  - unfold GetFreshAddresses, Get, freshPaths. rewrite Hs. simpl. rewrite Hbase. simpl.
    rewrite <- (map_map (fun k => base + Z.of_nat k) (fun j => (change, j))) in *.
    clear -Ht. f_equal. rewrite <- Ht. clear Ht.
    induction (map (fun k => base + Z.of_nat k) (seq 0 (Z.to_nat n)))
      as [|x l IH]; simpl; [reflexivity|]. now rewrite IH.
  - split; [exact Hlen|]. intros k Hk'.
    destruct (Hk (Z.to_nat k) ltac:(lia)) as (a & Hl & Ha). exists a.
    split; [exact Hl|]. simpl in Ha. now rewrite Z2Nat.id in Ha by lia.
Qed.

Lemma GetFreshAddresses_fresh_witness :
  (exists addrs,
     GetFreshAddresses (codec := textCodec)
       {[ "acct"%string := accounting 4 0 20 [] [] ]} "acct" External 2
     = ({[ "acct"%string := accounting 4 0 20 [] [] ]}, Ok addrs) /\
     length addrs = Z.to_nat 2 /\
     (forall k, 0 <= k < 2 ->
        exists a, addrs !! Z.to_nat k = Some a /\
                  addressAt (codec := textCodec) (accounting 4 0 20 [] [])
                    (External, 4 + k) = Ok a)) /\
  (forall d c size,
     (GetFreshAddresses (codec := textCodec)
        {[ "acct"%string := accounting 4 0 20 [] [] ]} d c size).1
     = {[ "acct"%string := accounting 4 0 20 [] [] ]}) /\
  GetFreshAddresses (codec := textCodec)
    (GetFreshAddresses (codec := textCodec)
       {[ "acct"%string := accounting 4 0 20 [] [] ]} "acct" External 2).1
    "acct" External 2
  = GetFreshAddresses (codec := textCodec)
      {[ "acct"%string := accounting 4 0 20 [] [] ]} "acct" External 2.
Proof.
  apply (GetFreshAddresses_fresh (codec := textCodec)
           {[ "acct"%string := accounting 4 0 20 [] [] ]} "acct"
           (accounting 4 0 20 [] []) External 4 2).
  - vm_compute; reflexivity.
  - reflexivity.
  - intros k _. eexists. reflexivity.
Defined.

(** ** The engine: creation *)

(** C7. The package's lookahead constant is 20, and a keychain created
    without an explicit lookahead is stored with lookahead size 20 (with the
    given one otherwise).  The creation succeeds when the descriptor is new
    and the codec yields the account key and its SLIP-0132 form and the two
    chain keys. *)
Theorem CreateKeychain_default_lookahead {codec : Codec}
  (s : Schema) (descriptor : string) (account : Account) (sch : Scheme)
  (net : Network) (xpub slip32 external internal : string) :
  s !! descriptor = None ->
  accountKey account net = Ok xpub ->
  SLIP32 xpub sch net = Ok slip32 ->
  CKDpub xpub 0 = Ok external ->
  CKDpub xpub 1 = Ok internal ->
  lookaheadSize = 20 /\
  (exists info,
     CreateKeychain s descriptor account sch net None
     = (<[descriptor := mkMeta info ∅ ∅]> s, Ok info) /\
     LookaheadSize info = 20) /\
  (forall k, exists info,
     CreateKeychain s descriptor account sch net (Some k)
     = (<[descriptor := mkMeta info ∅ ∅]> s, Ok info) /\
     LookaheadSize info = k).
Proof.
  intros Hs Hx Hslip Hext Hint.
  split; [reflexivity|].
  split; [|intros k]; eexists;
    unfold CreateKeychain, StoreCreate;
    rewrite Hx; simpl; rewrite Hslip; simpl; rewrite Hext; simpl;
    rewrite Hint; simpl; rewrite Hs; split; reflexivity.
Qed.

Lemma CreateKeychain_default_lookahead_witness :
  lookaheadSize = 20 /\
  (exists info,
     CreateKeychain (codec := textCodec) ∅ "acct" (FromXPub "xpub") BIP44 Mainnet None
     = (<["acct"%string := mkMeta info ∅ ∅]> ∅, Ok info) /\
     LookaheadSize info = 20) /\
  (forall k, exists info,
     CreateKeychain (codec := textCodec) ∅ "acct" (FromXPub "xpub") BIP44 Mainnet (Some k)
     = (<["acct"%string := mkMeta info ∅ ∅]> ∅, Ok info) /\
     LookaheadSize info = k).
Proof.
  apply (CreateKeychain_default_lookahead (codec := textCodec)
           ∅ "acct" (FromXPub "xpub") BIP44 Mainnet
           "xpub" "BIP44:xpub" "xpub/0" "xpub/1"); reflexivity.
Defined.

(** ** The engine on the specification's scenarios *)

(** Scenario 3: after index 0 is marked, the max consecutive external index
    is 1 and the observable bound is 21. *)
Example scenario_mark_first :
  observeExternal (markExternal [0] scenarioStore) = Some (Ok 1, Ok [], Ok 21).
Proof. vm_compute. reflexivity. Qed.

(** Scenario 4: after index 3 only is marked, the max consecutive external
    index is 0, the non-consecutive indexes are [3] and the bound is 21. *)
Example scenario_gap :
  observeExternal (markExternal [3] scenarioStore) = Some (Ok 0, Ok [3], Ok 21).
Proof. vm_compute. reflexivity. Qed.

(** Scenario 5: after indexes 0, 1 and 2 are marked as well the gap closes:
    the max consecutive external index is 4 and no index is left aside. *)
Example scenario_gap_closed :
  observeExternal (markExternal [3; 0; 1; 2] scenarioStore)
  = Some (Ok 4, Ok [], Ok 24).
Proof. vm_compute. reflexivity. Qed.

(** Marking the same path twice equals marking it once. *)
Example scenario_mark_twice :
  markExternal [3; 3] scenarioStore = markExternal [3] scenarioStore /\
  markExternal [0; 0] scenarioStore = markExternal [0] scenarioStore.
Proof. split; vm_compute; reflexivity. Qed.

(** ** Further properties of the accessors of store.go *)

Lemma filter_id_iff {A : Type} (f : A -> bool) (l : list A) :
  List.filter f l = l <-> Forall (fun x => f x = true) l.
Proof.
  split.
  - induction l as [|a l IH]; simpl; [constructor|].
    destruct (f a) eqn:Ha.
    + intros [= E]. constructor; auto.
    + intros E. pose proof (filter_length_le f l) as Hlen.
      rewrite E in Hlen. simpl in Hlen. lia.
  - induction 1 as [|a l Ha _ IH]; simpl; [reflexivity|].
    now rewrite Ha, IH.
Qed.

Lemma filter_nil_iff {A : Type} (f : A -> bool) (l : list A) :
  List.filter f l = [] <-> Forall (fun x => f x = false) l.
Proof.
  split.
  - induction l as [|a l IH]; simpl; [constructor|].
    destruct (f a) eqn:Ha; [discriminate|]. constructor; auto.
  - induction 1 as [|a l Ha _ IH]; simpl; [reflexivity|]. now rewrite Ha.
Qed.

Lemma filter_idem {A : Type} (f : A -> bool) (l : list A) :
  List.filter f (List.filter f l) = List.filter f l.
Proof.
  apply filter_id_iff, List.Forall_forall. intros x Hx.
  now apply filter_In in Hx.
Qed.

Lemma filter_sublist {A : Type} (f : A -> bool) (l : list A) :
  List.filter f l `sublist_of` l.
Proof.
  induction l as [|a l IH]; simpl; [constructor|].
  destruct (f a); now constructor.
Qed.

Lemma filter_StronglySorted {A : Type} (R : A -> A -> Prop) (f : A -> bool)
  (l : list A) :
  StronglySorted R l -> StronglySorted R (List.filter f l).
Proof.
  induction 1 as [|a l Hs IH Ha]; simpl; [constructor|].
  destruct (f a); [|assumption]. constructor; [assumption|].
  apply List.Forall_forall. intros x Hx. apply filter_In in Hx.
  rewrite List.Forall_forall in Ha. now apply Ha.
Qed.

Lemma Meta_eta (m : Meta) :
  set_MaxConsecutiveExternalIndex (MaxConsecutiveExternalIndex (Main m)) m = m /\
  set_MaxConsecutiveInternalIndex (MaxConsecutiveInternalIndex (Main m)) m = m /\
  set_NonConsecutiveExternalIndexes (NonConsecutiveExternalIndexes (Main m)) m = m /\
  set_NonConsecutiveInternalIndexes (NonConsecutiveInternalIndexes (Main m)) m = m.
Proof. destruct m as [[] ? ?]. repeat split. Qed.

Lemma getters_cases (m : Meta) (c : Change) (mx : Z) :
  MaxConsecutiveIndex m c = Ok mx ->
  (c = External /\ mx = MaxConsecutiveExternalIndex (Main m))
  \/ (c = Internal /\ mx = MaxConsecutiveInternalIndex (Main m)).
Proof.
  unfold MaxConsecutiveIndex. switch_on_change; intros [= <-]; auto.
Qed.

(** X1. SetNonConsecutiveIndexes is idempotent: a second call with the same
    argument, or with the list the first call stored, returns what the first
    call returned and leaves the record as the first call left it. *)
Theorem SetNonConsecutiveIndexes_idempotent
  (m : Meta) (c : Change) (indexes : list Z) :
  SetNonConsecutiveIndexes (SetNonConsecutiveIndexes m c indexes).1 c indexes
  = SetNonConsecutiveIndexes m c indexes /\
  (forall nc,
     NonConsecutiveIndexes (SetNonConsecutiveIndexes m c indexes).1 c = Ok nc ->
     SetNonConsecutiveIndexes (SetNonConsecutiveIndexes m c indexes).1 c nc
     = SetNonConsecutiveIndexes m c indexes).
Proof.
  destruct (recognized_cases c) as [[-> | ->] | Hn].
  - split; [|intros nc [= <-]]; unfold SetNonConsecutiveIndexes; simpl;
      unfold set_NonConsecutiveExternalIndexes; simpl;
      rewrite !keepFrom_filter; try rewrite filter_idem;
      try (rewrite (proj2 (filter_id_iff _ (List.filter _ indexes)));
           [|apply List.Forall_forall; intros x Hx; now apply filter_In in Hx]);
      reflexivity.
  - split; [|intros nc [= <-]]; unfold SetNonConsecutiveIndexes; simpl;
      unfold set_NonConsecutiveInternalIndexes; simpl;
      rewrite !keepFrom_filter; try rewrite filter_idem;
      try (rewrite (proj2 (filter_id_iff _ (List.filter _ indexes)));
           [|apply List.Forall_forall; intros x Hx; now apply filter_In in Hx]);
      reflexivity.
  - apply not_recognized_inv in Hn. destruct Hn as [HE HI].
    unfold SetNonConsecutiveIndexes, MaxConsecutiveIndex, NonConsecutiveIndexes.
    switch_on_change; try contradiction. split; [reflexivity | discriminate].
Qed.

Lemma filter_id_or_shorter {A : Type} (f : A -> bool) (l : list A) :
  List.filter f l = l \/ (length (List.filter f l) < length l)%nat.
Proof.
  induction l as [|a l IH]; simpl; [now left|].
  destruct (f a); simpl.
  - destruct IH as [-> | Hlt]; [now left | right; lia].
  - right. pose proof (filter_length_le f l). lia.
Qed.

(** X2. Writing back the non-consecutive indexes a chain already holds
    succeeds; the list read afterwards has the same elements in the same
    order as before exactly when every one of them is at least the chain's
    max consecutive index, and is strictly shorter otherwise.  This is a
    statement about the elements of the slice: whether an empty slice is nil
    is not part of it. *)
Theorem SetNonConsecutiveIndexes_write_back (m : Meta) (c : Change) (nc : list Z) :
  NonConsecutiveIndexes m c = Ok nc ->
  exists nc',
    (SetNonConsecutiveIndexes m c nc).2 = None /\
    NonConsecutiveIndexes (SetNonConsecutiveIndexes m c nc).1 c = Ok nc' /\
    (nc' = nc <-> at_least_max m c) /\
    (~ at_least_max m c -> (length nc' < length nc)%nat).
Proof.
  intros Hnc.
  assert (Hc : recognized c).
  { revert Hnc. unfold NonConsecutiveIndexes, recognized.
    switch_on_change; auto; discriminate. }
  destruct (SetNonConsecutiveIndexes_stored m c nc Hc)
    as (m' & mx & Hset & Hmx & _ & Hnc').
  rewrite Hset. simpl. exists (List.filter (fun x => mx <=? x) nc).
  assert (Hiff : List.filter (fun x => mx <=? x) nc = nc <-> at_least_max m c).
  { rewrite filter_id_iff. split.
    - intros Hall mx0 nc0 Hmx0 Hnc0. rewrite Hmx in Hmx0. rewrite Hnc in Hnc0.
      injection Hmx0 as <-. injection Hnc0 as <-.
      eapply List.Forall_impl; [|exact Hall]. simpl. intros x. apply Z.leb_le.
    - intros Hinv. specialize (Hinv mx nc Hmx Hnc).
      eapply List.Forall_impl; [|exact Hinv]. simpl. intros x. apply Z.leb_le. }
  repeat match goal with |- _ /\ _ => split end; try reflexivity;
    try exact Hnc'; try apply Hiff.
  intros Hn.
  destruct (filter_id_or_shorter (fun x => mx <=? x) nc) as [E | Hlt];
    [|exact Hlt].
  exfalso. apply Hn. now apply Hiff.
Qed.

Lemma SetNonConsecutiveIndexes_write_back_witness :
  NonConsecutiveIndexes (accounting 4 0 20 [2; 4; 7] []) External = Ok [2; 4; 7] /\
  exists nc',
    (SetNonConsecutiveIndexes (accounting 4 0 20 [2; 4; 7] []) External [2; 4; 7]).2
    = None /\
    NonConsecutiveIndexes
      (SetNonConsecutiveIndexes (accounting 4 0 20 [2; 4; 7] []) External [2; 4; 7]).1
      External = Ok nc' /\
    (nc' = [2; 4; 7] <-> at_least_max (accounting 4 0 20 [2; 4; 7] []) External) /\
    (~ at_least_max (accounting 4 0 20 [2; 4; 7] []) External ->
     (length nc' < length [2; 4; 7])%nat).
Proof.
  split; [reflexivity|].
  apply (SetNonConsecutiveIndexes_write_back
           (accounting 4 0 20 [2; 4; 7] []) External [2; 4; 7]).
  reflexivity.
Defined.

(** X3. SetMaxConsecutiveIndex and MaxConsecutiveIndex on External or
    Internal: the getter returns what the setter wrote, writing back the
    value the getter returns changes nothing, and of two writes in a row the
    last one wins. *)
Theorem SetMaxConsecutiveIndex_round_trip (m : Meta) (c : Change) (i j : Z) :
  recognized c ->
  MaxConsecutiveIndex (SetMaxConsecutiveIndex m c i).1 c = Ok i /\
  (forall mx, MaxConsecutiveIndex m c = Ok mx ->
              SetMaxConsecutiveIndex m c mx = (m, None)) /\
  SetMaxConsecutiveIndex (SetMaxConsecutiveIndex m c i).1 c j
  = SetMaxConsecutiveIndex m c j.
Proof.
  destruct (Meta_eta m) as (EE & EI & _ & _).
  intros [-> | ->]; (split; [reflexivity|]); (split; [|reflexivity]);
    intros mx [= <-]; unfold SetMaxConsecutiveIndex; simpl; now f_equal.
Qed.

Lemma SetMaxConsecutiveIndex_round_trip_witness :
  recognized Internal /\
  MaxConsecutiveIndex
    (SetMaxConsecutiveIndex (accounting 1 2 20 [] [5]) Internal 3).1 Internal
  = Ok 3 /\
  (forall mx, MaxConsecutiveIndex (accounting 1 2 20 [] [5]) Internal = Ok mx ->
     SetMaxConsecutiveIndex (accounting 1 2 20 [] [5]) Internal mx
     = (accounting 1 2 20 [] [5], None)) /\
  SetMaxConsecutiveIndex
    (SetMaxConsecutiveIndex (accounting 1 2 20 [] [5]) Internal 3).1 Internal 4
  = SetMaxConsecutiveIndex (accounting 1 2 20 [] [5]) Internal 4.
Proof.
  split; [now right|].
  apply (SetMaxConsecutiveIndex_round_trip (accounting 1 2 20 [] [5]) Internal 3 4).
  now right.
Defined.

(** X4. Setter calls on two different change tags commute: the record after
    both calls does not depend on their order, whichever of the two setters
    each call is (and also when one of the tags is not recognised, that call
    being a no-op). *)
Theorem setters_commute_across_chains
  (m : Meta) (c c' : Change) (i j : Z) (xs ys : list Z) :
  c <> c' ->
  (SetMaxConsecutiveIndex (SetMaxConsecutiveIndex m c i).1 c' j).1
  = (SetMaxConsecutiveIndex (SetMaxConsecutiveIndex m c' j).1 c i).1 /\
  (SetNonConsecutiveIndexes (SetMaxConsecutiveIndex m c i).1 c' ys).1
  = (SetMaxConsecutiveIndex (SetNonConsecutiveIndexes m c' ys).1 c i).1 /\
  (SetNonConsecutiveIndexes (SetNonConsecutiveIndexes m c xs).1 c' ys).1
  = (SetNonConsecutiveIndexes (SetNonConsecutiveIndexes m c' ys).1 c xs).1.
Proof.
  intros Hne.
  unfold SetMaxConsecutiveIndex, SetNonConsecutiveIndexes, MaxConsecutiveIndex.
  repeat match goal with |- _ /\ _ => split end;
    switch_on_change; subst; simpl; try reflexivity; try contradiction;
    try discriminate.
Qed.

Lemma setters_commute_across_chains_witness :
  External <> Internal /\
  (SetMaxConsecutiveIndex
     (SetMaxConsecutiveIndex (accounting 0 0 20 [] []) External 2).1 Internal 3).1
  = (SetMaxConsecutiveIndex
       (SetMaxConsecutiveIndex (accounting 0 0 20 [] []) Internal 3).1 External 2).1 /\
  (SetNonConsecutiveIndexes
     (SetMaxConsecutiveIndex (accounting 0 0 20 [] []) External 2).1 Internal [6]).1
  = (SetMaxConsecutiveIndex
       (SetNonConsecutiveIndexes (accounting 0 0 20 [] []) Internal [6]).1 External 2).1 /\
  (SetNonConsecutiveIndexes
     (SetNonConsecutiveIndexes (accounting 0 0 20 [] []) External [4]).1 Internal [6]).1
  = (SetNonConsecutiveIndexes
       (SetNonConsecutiveIndexes (accounting 0 0 20 [] []) Internal [6]).1 External [4]).1.
Proof.
  assert (Hne : External <> Internal) by discriminate.
  split; [exact Hne|].
  exact (setters_commute_across_chains
           (accounting 0 0 20 [] []) External Internal 2 3 [4] [6] Hne).
Defined.

(** X5. How the observable bound of a chain follows the setters: after
    SetMaxConsecutiveIndex with i it is (i + |non_consecutive| +
    lookahead_size) mod 2^32; after SetNonConsecutiveIndexes with xs it
    counts the elements of xs that are at least the max consecutive index,
    repeated ones as often as they occur; a setter called on another change
    tag leaves it as it was. *)
Theorem MaxObservableIndex_after_setters
  (m : Meta) (c c' : Change) (i mx : Z) (nc xs : list Z) :
  MaxConsecutiveIndex m c = Ok mx ->
  NonConsecutiveIndexes m c = Ok nc ->
  MaxObservableIndex (SetMaxConsecutiveIndex m c i).1 c
  = Ok (U32.wrap (exact_window i nc (LookaheadSize (Main m)))) /\
  MaxObservableIndex (SetNonConsecutiveIndexes m c xs).1 c
  = Ok (U32.wrap
          (exact_window mx (List.filter (fun x => mx <=? x) xs)
             (LookaheadSize (Main m)))) /\
  (c' <> c ->
   MaxObservableIndex (SetMaxConsecutiveIndex m c' i).1 c = MaxObservableIndex m c /\
   MaxObservableIndex (SetNonConsecutiveIndexes m c' xs).1 c
   = MaxObservableIndex m c).
Proof.
  intros Hmx Hnc.
  pose proof (getters_recognized m c mx Hmx) as Hc.
  repeat match goal with |- _ /\ _ => split end.
  - destruct (setter_getters m c c i []) as (G0 & _ & _).
    rewrite (MaxObservableIndex_wrap _ c i nc).
    + f_equal. destruct Hc as [-> | ->]; reflexivity.
    + now apply SetMaxConsecutiveIndex_get.
    + now rewrite G0.
  - destruct (SetNonConsecutiveIndexes_stored m c xs Hc)
      as (m' & mx0 & Hset & Hmx0 & Hmx' & Hnc').
    rewrite Hmx in Hmx0. injection Hmx0 as <-.
    rewrite Hset. simpl.
    rewrite (MaxObservableIndex_wrap m' c mx _ Hmx' Hnc').
    f_equal. f_equal. revert Hset. unfold SetNonConsecutiveIndexes. rewrite Hmx.
    destruct Hc as [-> | ->]; simpl; now intros [= <-].
  - intros Hne. unfold SetMaxConsecutiveIndex, SetNonConsecutiveIndexes,
      MaxConsecutiveIndex, MaxObservableIndex.
    split; switch_on_change; subst; simpl; try reflexivity; try contradiction;
      try discriminate.
Qed.

Lemma MaxObservableIndex_after_setters_witness :
  MaxObservableIndex
    (SetMaxConsecutiveIndex (accounting 1 0 20 [3] []) External 2).1 External
  = Ok (U32.wrap (exact_window 2 [3] 20)) /\
  MaxObservableIndex
    (SetNonConsecutiveIndexes (accounting 1 0 20 [3] []) External [0; 5; 5]).1
    External
  = Ok (U32.wrap (exact_window 1 (List.filter (fun x => 1 <=? x) [0; 5; 5]) 20)) /\
  (Internal <> External ->
   MaxObservableIndex
     (SetMaxConsecutiveIndex (accounting 1 0 20 [3] []) Internal 2).1 External
   = MaxObservableIndex (accounting 1 0 20 [3] []) External /\
   MaxObservableIndex
     (SetNonConsecutiveIndexes (accounting 1 0 20 [3] []) Internal [0; 5; 5]).1
     External
   = MaxObservableIndex (accounting 1 0 20 [3] []) External).
Proof.
  apply (MaxObservableIndex_after_setters
           (accounting 1 0 20 [3] []) External Internal 2 1 [3] [0; 5; 5]);
    reflexivity.
Defined.

(** X6. SetNonConsecutiveIndexes keeps the order of its argument: the list
    it stores is a sublist of the argument, no longer than it, and ascending
    whenever the argument is ascending. *)
Theorem SetNonConsecutiveIndexes_keeps_order
  (m : Meta) (c : Change) (indexes nc : list Z) :
  NonConsecutiveIndexes (SetNonConsecutiveIndexes m c indexes).1 c = Ok nc ->
  nc `sublist_of` indexes /\
  (length nc <= length indexes)%nat /\
  (StronglySorted Z.lt indexes -> StronglySorted Z.lt nc).
Proof.
  intros Hnc.
  assert (Hc : recognized c).
  { revert Hnc. unfold NonConsecutiveIndexes, recognized.
    switch_on_change; auto; discriminate. }
  destruct (SetNonConsecutiveIndexes_stored m c indexes Hc)
    as (m' & mx & Hset & _ & _ & Hnc').
  rewrite Hset in Hnc. simpl in Hnc. rewrite Hnc' in Hnc. injection Hnc as <-.
  split; [apply filter_sublist|]. split; [apply filter_length_le|].
  apply filter_StronglySorted.
Qed.

Lemma SetNonConsecutiveIndexes_keeps_order_witness :
  NonConsecutiveIndexes
    (SetNonConsecutiveIndexes (accounting 4 0 20 [] []) External [1; 5; 9]).1
    External = Ok [5; 9] /\
  [5; 9] `sublist_of` [1; 5; 9] /\
  (length [5; 9] <= length [1; 5; 9])%nat /\
  (StronglySorted Z.lt [1; 5; 9] -> StronglySorted Z.lt [5; 9]).
Proof.
  split; [reflexivity|].
  apply (SetNonConsecutiveIndexes_keeps_order
           (accounting 4 0 20 [] []) External [1; 5; 9] [5; 9]).
  reflexivity.
Defined.

(** X7. SetNonConsecutiveIndexes empties the chain's list exactly when every
    element of its argument is below the max consecutive index, the empty
    argument included; the observable bound is then (max_consecutive +
    lookahead_size) mod 2^32. *)
Theorem SetNonConsecutiveIndexes_clears_iff
  (m : Meta) (c : Change) (mx : Z) (indexes : list Z) :
  MaxConsecutiveIndex m c = Ok mx ->
  (NonConsecutiveIndexes (SetNonConsecutiveIndexes m c indexes).1 c = Ok []
   <-> Forall (fun x => x < mx) indexes) /\
  NonConsecutiveIndexes (SetNonConsecutiveIndexes m c []).1 c = Ok [] /\
  (Forall (fun x => x < mx) indexes ->
   MaxObservableIndex (SetNonConsecutiveIndexes m c indexes).1 c
   = Ok (U32.wrap (mx + LookaheadSize (Main m)))).
Proof.
  intros Hmx.
  pose proof (getters_recognized m c mx Hmx) as Hc.
  assert (Hiff : forall xs,
             List.filter (fun x => mx <=? x) xs = [] <-> Forall (fun x => x < mx) xs).
  { intros xs. rewrite filter_nil_iff. rewrite !List.Forall_forall.
    split; intros H x Hx; specialize (H x Hx); now apply Z.leb_gt. }
  assert (Hst : forall xs,
             NonConsecutiveIndexes (SetNonConsecutiveIndexes m c xs).1 c
             = Ok (List.filter (fun x => mx <=? x) xs)).
  { intros xs.
    destruct (SetNonConsecutiveIndexes_stored m c xs Hc)
      as (m' & mx0 & Hset & Hmx0 & _ & Hnc').
    rewrite Hmx in Hmx0. injection Hmx0 as <-. now rewrite Hset. }
  repeat match goal with |- _ /\ _ => split end.
  - rewrite Hst.
    split; [intros [= E]; now apply Hiff | intros H; f_equal; now apply Hiff].
  - now rewrite Hst.
  - intros H.
    destruct (setter_getters m c c 0 indexes) as (_ & G1 & _).
    rewrite (MaxObservableIndex_wrap _ c mx []).
    + unfold exact_window. simpl. rewrite Z.add_0_r. do 3 f_equal.
      destruct (SetNonConsecutiveIndexes_stored m c indexes Hc)
        as (m' & mx0 & Hset & _ & _ & _).
      revert Hset. unfold SetNonConsecutiveIndexes. rewrite Hmx.
      destruct Hc as [-> | ->]; simpl; intros [= <-]; reflexivity.
    + now rewrite G1.
    + rewrite Hst. f_equal. now apply Hiff.
Qed.

Lemma SetNonConsecutiveIndexes_clears_iff_witness :
  (NonConsecutiveIndexes
     (SetNonConsecutiveIndexes (accounting 4 0 20 [6] []) External [1; 3]).1
     External = Ok []
   <-> Forall (fun x => x < 4) [1; 3]) /\
  NonConsecutiveIndexes
    (SetNonConsecutiveIndexes (accounting 4 0 20 [6] []) External []).1 External
  = Ok [] /\
  (Forall (fun x => x < 4) [1; 3] ->
   MaxObservableIndex
     (SetNonConsecutiveIndexes (accounting 4 0 20 [6] []) External [1; 3]).1
     External
   = Ok (U32.wrap (4 + 20))).
Proof.
  apply (SetNonConsecutiveIndexes_clears_iff
           (accounting 4 0 20 [6] []) External 4 [1; 3]).
  reflexivity.
Defined.

(** X8. On one chain the two setters do not commute in general:
    SetMaxConsecutiveIndex(i) followed by SetNonConsecutiveIndexes(xs)
    filters xs against i, the other order filters it against the old max
    consecutive index.  The first order always leaves every stored index at
    least the max consecutive index; the two orders give the same record
    exactly when i and the old index admit the same elements of xs. *)
Theorem setters_order_on_one_chain
  (m : Meta) (c : Change) (i mx : Z) (xs : list Z) :
  MaxConsecutiveIndex m c = Ok mx ->
  MaxConsecutiveIndex
    (SetNonConsecutiveIndexes (SetMaxConsecutiveIndex m c i).1 c xs).1 c = Ok i /\
  NonConsecutiveIndexes
    (SetNonConsecutiveIndexes (SetMaxConsecutiveIndex m c i).1 c xs).1 c
  = Ok (List.filter (fun x => i <=? x) xs) /\
  MaxConsecutiveIndex
    (SetMaxConsecutiveIndex (SetNonConsecutiveIndexes m c xs).1 c i).1 c = Ok i /\
  NonConsecutiveIndexes
    (SetMaxConsecutiveIndex (SetNonConsecutiveIndexes m c xs).1 c i).1 c
  = Ok (List.filter (fun x => mx <=? x) xs) /\
  at_least_max
    (SetNonConsecutiveIndexes (SetMaxConsecutiveIndex m c i).1 c xs).1 c /\
  ((SetNonConsecutiveIndexes (SetMaxConsecutiveIndex m c i).1 c xs).1
   = (SetMaxConsecutiveIndex (SetNonConsecutiveIndexes m c xs).1 c i).1
   <-> forall x, In x xs -> (i <= x <-> mx <= x)).
Proof.
  intros Hmx.
  pose proof (getters_recognized m c mx Hmx) as Hc.
  assert (Hext : List.filter (fun x => i <=? x) xs
                 = List.filter (fun x => mx <=? x) xs
                 <-> forall x, In x xs -> (i <= x <-> mx <= x)).
  { rewrite filter_ext_in_iff. split; intros H x Hx; specialize (H x Hx).
    - rewrite <- !Z.leb_le. now rewrite H.
    - destruct (Z.leb_spec i x), (Z.leb_spec mx x); try reflexivity; lia. }
  destruct (getters_cases m c mx Hmx) as [[-> ->] | [-> ->]].
  - repeat match goal with |- _ /\ _ => split end;
      try (unfold NonConsecutiveIndexes; simpl; now rewrite keepFrom_filter);
      try reflexivity.
    + now apply SetNonConsecutiveIndexes_establishes.
    + split.
      * unfold SetNonConsecutiveIndexes; simpl. rewrite !keepFrom_filter.
        intros E. apply Hext.
        exact (f_equal (fun m => NonConsecutiveExternalIndexes (Main m)) E).
      * intros H. apply Hext in H.
        unfold SetNonConsecutiveIndexes, SetMaxConsecutiveIndex,
          set_NonConsecutiveExternalIndexes, set_MaxConsecutiveExternalIndex;
          simpl. rewrite !keepFrom_filter. now rewrite H.
  - repeat match goal with |- _ /\ _ => split end;
      try (unfold NonConsecutiveIndexes; simpl; now rewrite keepFrom_filter);
      try reflexivity.
    + now apply SetNonConsecutiveIndexes_establishes.
    + split.
      * unfold SetNonConsecutiveIndexes; simpl. rewrite !keepFrom_filter.
        intros E. apply Hext.
        exact (f_equal (fun m => NonConsecutiveInternalIndexes (Main m)) E).
      * intros H. apply Hext in H.
        unfold SetNonConsecutiveIndexes, SetMaxConsecutiveIndex,
          set_NonConsecutiveInternalIndexes, set_MaxConsecutiveInternalIndex;
          simpl. rewrite !keepFrom_filter. now rewrite H.
Qed.

Lemma setters_order_on_one_chain_witness :
  MaxConsecutiveIndex
    (SetNonConsecutiveIndexes
       (SetMaxConsecutiveIndex (accounting 0 0 20 [] []) External 4).1
       External [3; 6]).1 External = Ok 4 /\
  NonConsecutiveIndexes
    (SetNonConsecutiveIndexes
       (SetMaxConsecutiveIndex (accounting 0 0 20 [] []) External 4).1
       External [3; 6]).1 External
  = Ok (List.filter (fun x => 4 <=? x) [3; 6]) /\
  MaxConsecutiveIndex
    (SetMaxConsecutiveIndex
       (SetNonConsecutiveIndexes (accounting 0 0 20 [] []) External [3; 6]).1
       External 4).1 External = Ok 4 /\
  NonConsecutiveIndexes
    (SetMaxConsecutiveIndex
       (SetNonConsecutiveIndexes (accounting 0 0 20 [] []) External [3; 6]).1
       External 4).1 External
  = Ok (List.filter (fun x => 0 <=? x) [3; 6]) /\
  at_least_max
    (SetNonConsecutiveIndexes
       (SetMaxConsecutiveIndex (accounting 0 0 20 [] []) External 4).1
       External [3; 6]).1 External /\
  ((SetNonConsecutiveIndexes
      (SetMaxConsecutiveIndex (accounting 0 0 20 [] []) External 4).1
      External [3; 6]).1
   = (SetMaxConsecutiveIndex
        (SetNonConsecutiveIndexes (accounting 0 0 20 [] []) External [3; 6]).1
        External 4).1
   <-> forall x, In x [3; 6] -> (4 <= x <-> 0 <= x)).
Proof.
  apply (setters_order_on_one_chain (accounting 0 0 20 [] []) External 4 0 [3; 6]).
  reflexivity.
Defined.
